(** * youtube-service: the catalog store and its request handlers

    The service keeps one JSON document, [./videos.json], holding a mapping
    from category names to categories.  Every request handler reads the whole
    document with [readVideos], works on the object in memory, and, when it
    mutates, writes the whole object back with [writeVideos].

    The repository holds several revisions of the server:
      - [src/server.js], first listing and [src/unnamed/part_000]: the
        flat schema, a category is the array of its videos ([Module Flat]);
      - [src/server.js], second and third listing, and
        [src/unnamed/part_001]: a category is an object
        [{ categoryThumbnail, videos }] ([Module Thumb]).

    Modelling conventions.
      - The object returned by [JSON.parse] is a [gmap string _] over its own
        properties.  The document holds a catalog of the schema of its
        revision, so a value found under an own name is an object (or an
        array) and is truthy.
      - [videos[name]] also finds what every object inherits
        ([constructor], [toString], [__proto__], ...): [prop] looks a name up
        among the own properties first and in the table of inherited names
        next.  A value found there is a function, or the prototype itself:
        it is truthy, it is no category, and a handler that goes on to use it
        as one throws a [TypeError].
      - The [:index] route parameter is a string, used as a property name of
        the array of videos and as an argument of [splice]: [array_index]
        tells whether it is the decimal numeral of an index.
      - The tables of inherited names belong to the runtime and are the
        fields of the class [Runtime]; [node] lists those of Node.js 20.
        An assignment that a handler makes on an inherited value changes the
        runtime, not the catalog, and is not followed.
      - A handler is an [async] function without a [try]: what it throws is
        not answered by the handler, and its outcome is [Thrown].
      - [Object.keys] yields the keys of the map; its results are used as
        a name set, and the enumeration order of the keys is not modelled.
      - Request fields and optional keys of stored objects are optional
        strings: [None] is a key that is absent ([undefined]).
      - [fs.readFile], [fs.writeFile], [JSON.parse] and [JSON.stringify]
        belong to the runtime: the first two act on a small disk state with
        their failure modes, the last two are the operations of a class.
        [MiniJSON] is an instance for the examples that are run on a
        concrete disk. *)

From Stdlib Require Import Ascii.
From Stdlib Require DecimalString DecimalNat.
From stdpp Require Import base option strings list gmap fin_maps.

(** ** JavaScript values of the request fields *)

(** A field destructured from [req.body]: a string, or [undefined]. *)
Definition field := option string.

(** [if (x)]: [undefined] and the empty string are falsy. *)
Definition truthy (x : field) : bool :=
  match x with
  | Some s => negb (String.eqb s "")
  | None => false
  end.

(** [!x] *)
Definition falsy (x : field) : bool := negb (truthy x).

(** [x || ""] *)
Definition or_empty (x : field) : string :=
  if truthy x then default "" x else "".

(** A video object: [{ title, description, url }], with [thumbnail] when it
    was given.  A key whose value is [undefined] is absent. *)
Record Video := mkVideo {
  title : field;
  description : field;
  url : field;
  thumbnail : field
}.

(** ** Property access *)

(** The names that the runtime gives to every object and to every array. *)
Class Runtime := {
  (** [name] is a property of [Object.prototype] *)
  object_inherits : string → bool;
  (** [name] is a property of [Array.prototype] or of [Object.prototype] *)
  array_inherits : string → bool;
  (** for an inherited [name], the value [videos[name]] has a truthy
      property [member], or reading it throws *)
  inherited_member : string → string → bool
}.

(** [videos[name]], for a name taken from the request. *)
Inductive property (A : Type) :=
| Own (a : A)     (* an own property: a category of the catalog *)
| Inherited       (* a property of the prototype *)
| Missing.        (* undefined *)
Arguments Own {A} a.
Arguments Inherited {A}.
Arguments Missing {A}.

Definition prop {runtime : Runtime} {A} (videos : gmap string A)
    (name : string) : property A :=
  match videos !! name with
  | Some a => Own a
  | None => if object_inherits name then Inherited else Missing
  end.

(** The decimal numeral of an array index, as a route has it. *)
Definition numeral (n : nat) : string :=
  DecimalString.NilEmpty.string_of_uint (Nat.to_uint n).

(** The array index that a property name denotes: a name is an index when
    it is the numeral of a number. *)
Definition array_index (name : string) : option nat :=
  match DecimalString.NilEmpty.uint_of_string name with
  | Some d =>
      let n := Nat.of_uint d in
      if String.eqb (numeral n) name then Some n else None
  | None => None
  end.

(** [l[index]], for an array of videos and the route parameter [:index]. *)
Inductive element :=
| Item (video : Video)   (* the video at that index *)
| Length                 (* [l.length], when it is not 0 *)
| Member                 (* a method of arrays, or their prototype *)
| Absent.                (* undefined, or the length 0 *)

Definition item {runtime : Runtime} (l : list Video) (index : string)
  : element :=
  match array_index index with
  | Some n =>
      match l !! n with
      | Some video => Item video
      | None => Absent
      end
  | None =>
      if String.eqb index "length"
      then match l with [] => Absent | _ :: _ => Length end
      else if array_inherits index then Member else Absent
  end.

(** The start that [splice(index, 1)] makes of [index]: the number it
    denotes.  A name that passes the guard and is no index is [length] or
    the name of a method: it denotes no number, and the start is 0. *)
Definition start (index : string) : nat := default 0 (array_index index).

Arguments numeral : simpl never.
Arguments array_index : simpl never.
Arguments item : simpl never.
Arguments start : simpl never.

(** The tables of Node.js 20. *)
Definition Object_prototype : list string :=
  [ "constructor"; "__defineGetter__"; "__defineSetter__"; "hasOwnProperty";
    "__lookupGetter__"; "__lookupSetter__"; "isPrototypeOf";
    "propertyIsEnumerable"; "toString"; "valueOf"; "__proto__";
    "toLocaleString" ].

Definition Array_prototype : list string :=
  [ "constructor"; "at"; "concat"; "copyWithin"; "fill"; "find"; "findIndex";
    "findLast"; "findLastIndex"; "lastIndexOf"; "pop"; "push"; "reverse";
    "shift"; "unshift"; "slice"; "sort"; "splice"; "includes"; "indexOf";
    "join"; "keys"; "entries"; "values"; "forEach"; "filter"; "flat";
    "flatMap"; "map"; "every"; "some"; "reduce"; "reduceRight";
    "toLocaleString"; "toString"; "toReversed"; "toSorted"; "toSpliced";
    "with" ].

Definition Function_prototype : list string :=
  [ "apply"; "bind"; "call"; "toString"; "constructor"; "caller";
    "arguments" ].

(** The own properties of the function [Object]. *)
Definition Object_constructor : list string :=
  [ "prototype"; "assign"; "create"; "defineProperties"; "defineProperty";
    "entries"; "freeze"; "fromEntries"; "getOwnPropertyDescriptor";
    "getOwnPropertyDescriptors"; "getOwnPropertyNames";
    "getOwnPropertySymbols"; "getPrototypeOf"; "hasOwn"; "is";
    "isExtensible"; "isFrozen"; "isSealed"; "keys"; "preventExtensions";
    "seal"; "setPrototypeOf"; "values" ].

(** The methods of [Object.prototype] that take no argument: their
    [length] is 0. *)
Definition nullary : list string :=
  [ "toString"; "valueOf"; "toLocaleString" ].

Definition node : Runtime := {|
  object_inherits name := bool_decide (name ∈ Object_prototype);
  array_inherits name :=
    bool_decide (name ∈ Array_prototype ++ Object_prototype);
  inherited_member name member :=
    if String.eqb name "__proto__"
    then bool_decide (member ∈ Object_prototype)
         && negb (String.eqb member "__proto__")
    else
      bool_decide (member ∈ Function_prototype ++ Object_prototype)
      || String.eqb member "name"
      || String.eqb member "length" && negb (bool_decide (name ∈ nullary))
      || String.eqb name "constructor"
         && bool_decide (member ∈ Object_constructor)
|}.

(** ** The store: [readVideos] and [writeVideos] *)

Module Store.

(** What a rejected promise or a [throw] carries. *)
Inductive error := ENOENT | EACCES | SyntaxError.

Inductive exn (A : Type) :=
| Ok (a : A)
| Throw (e : error).
Arguments Ok {A} a.
Arguments Throw {A} e.

Definition bind {A B} (m : exn A) (k : A → exn B) : exn B :=
  match m with
  | Ok a => k a
  | Throw e => Throw e
  end.

(** [try { m } catch (err) { h err }] *)
Definition try_catch {A} (m : exn A) (h : error → exn A) : exn A :=
  match m with
  | Ok a => Ok a
  | Throw e => h e
  end.

(** The state of [DATA_FILE]: its contents when the file exists, and
    whether the process may read and write it. *)
Record Disk := mkDisk {
  contents : option string;
  readable : bool;
  writable : bool
}.

(** [fs.readFile(DATA_FILE, "utf-8")] *)
Definition readFile (d : Disk) : exn string :=
  match contents d with
  | None => Throw ENOENT
  | Some data => if readable d then Ok data else Throw EACCES
  end.

(** [fs.writeFile(DATA_FILE, data, "utf-8")]: the whole file is replaced. *)
Definition writeFile (d : Disk) (data : string) : exn Disk :=
  if writable d
  then Ok {| contents := Some data; readable := readable d; writable := true |}
  else Throw EACCES.

(** [JSON.stringify(_, null, 2)] and [JSON.parse] at the type of the
    catalog; [JSON_parse] is [None] where [JSON.parse] throws. *)
Class JSON (C : Type) := {
  JSON_stringify : C → string;
  JSON_parse : string → option C
}.

Section store.
Context {Cat : Type} {codec : JSON (gmap string Cat)}.

(** The [try] block of [readVideos]. *)
Definition readVideos_try (d : Disk) : exn (gmap string Cat) :=
  bind (readFile d) (λ data,
    match JSON_parse data with
    | Some videos => Ok videos
    | None => Throw SyntaxError
    end).

(** [readVideos]: on any error the empty object is returned. *)
Definition readVideos (d : Disk) : exn (gmap string Cat) :=
  try_catch (readVideos_try d) (λ err, Ok ∅).

(** [writeVideos]: a failed write is logged and otherwise ignored. *)
Definition writeVideos (videos : gmap string Cat) (d : Disk) : exn Disk :=
  try_catch (writeFile d (JSON_stringify videos)) (λ err, Ok d).

(** The catalog a request starts from, and the disk a save leaves. *)
Definition load (d : Disk) : gmap string Cat :=
  match readVideos d with
  | Ok videos => videos
  | Throw _ => ∅
  end.

Definition save (videos : gmap string Cat) (d : Disk) : Disk :=
  match writeVideos videos d with
  | Ok d' => d'
  | Throw _ => d
  end.

Definition commit (saves : list (gmap string Cat)) (d : Disk) : Disk :=
  foldl (λ d videos, save videos d) d saves.
End store.

End Store.

(** ** Handlers as programs over the store

    A handler awaits [readVideos()] and [writeVideos(videos)] and ends with a
    response.  Its body is kept as a program whose nodes are those two calls,
    so that the catalog a handler loads and the catalog it saves can be
    named; [run] executes the program on a disk with the store above. *)

Inductive io (Cat A : Type) :=
| Ret (a : A)
| Read (k : gmap string Cat → io Cat A)
| Write (videos : gmap string Cat) (k : io Cat A).
Arguments Ret {Cat A} a.
Arguments Read {Cat A} k.
Arguments Write {Cat A} videos k.

Fixpoint io_bind {Cat A B} (m : io Cat A) (f : A → io Cat B) : io Cat B :=
  match m with
  | Ret a => f a
  | Read k => Read (λ videos, io_bind (k videos) f)
  | Write videos k => Write videos (io_bind k f)
  end.

#[export] Instance io_ret {Cat} : MRet (io Cat) := λ A a, Ret a.
#[export] Instance io_mbind {Cat} : MBind (io Cat) := λ A B f m, io_bind m f.

(** [await readVideos()] *)
Definition readVideos {Cat} : io Cat (gmap string Cat) := Read Ret.

(** [await writeVideos(videos)] *)
Definition writeVideos {Cat} (videos : gmap string Cat) : io Cat unit :=
  Write videos (Ret tt).

(** The catalogs handed to [writeVideos], in order, when every
    [readVideos()] returns [loaded]; and the value the program ends with. *)
Fixpoint outcome {Cat A} (p : io Cat A) (loaded : gmap string Cat)
  : A * list (gmap string Cat) :=
  match p with
  | Ret a => (a, [])
  | Read k => outcome (k loaded) loaded
  | Write videos k =>
      let '(a, saved) := outcome k loaded in (a, videos :: saved)
  end.

Definition result {Cat A} (p : io Cat A) (loaded : gmap string Cat) : A :=
  (outcome p loaded).1.

Definition saved {Cat A} (p : io Cat A) (loaded : gmap string Cat)
  : list (gmap string Cat) :=
  (outcome p loaded).2.

(** Execution against the disk. *)
Fixpoint run {Cat A} {codec : Store.JSON (gmap string Cat)}
    (p : io Cat A) (d : Store.Disk) : Store.exn (A * Store.Disk) :=
  match p with
  | Ret a => Store.Ok (a, d)
  | Read k => Store.bind (Store.readVideos d) (λ videos, run (k videos) d)
  | Write videos k => Store.bind (Store.writeVideos videos d) (λ d', run k d')
  end.

(** What [res.status(n).json(b)] and [res.json(b)] send. *)
Record Response (B : Type) := mkResponse {
  status : nat;
  body : B
}.
Arguments mkResponse {B} status body.
Arguments status {B} r.
Arguments body {B} r.


(** What a request ends with: the response that the handler sends, or the
    [TypeError] that its body throws before it sends one. *)
Inductive Reply (B : Type) :=
| Sent (r : Response B)
| Thrown.
Arguments Sent {B} r.
Arguments Thrown {B}.

Definition res_status_json {B} (n : nat) (b : B) : Reply B :=
  Sent {| status := n; body := b |}.

Definition res_json {B} (b : B) : Reply B :=
  Sent {| status := 200; body := b |}.

(** A 4xx response. *)
Definition client_error {B} (r : Reply B) : bool :=
  match r with
  | Sent r => ((400 <=? status r) && (status r <? 500))%nat
  | Thrown => false
  end.

(** [Object.keys(videos)] *)
Definition Object_keys {Cat} (videos : gmap string Cat) : list string :=
  (map_to_list videos).*1.

(** ** The flat schema: [src/server.js] (first listing), [src/unnamed/part_000] *)

Module Flat.

(** [videos.json]: category name to the array of its videos. *)
Abbreviation Catalog := (gmap string (list Video)).

(** The JSON bodies the handlers send. *)
Inductive Json :=
| Error (error : string)                  (* { error } *)
| All (videos : Catalog)                  (* videos *)
| Listing (videos : list Video)           (* videos[category] *)
| Foreign (name : string)                 (* videos[name], inherited *)
| OkVideos (videos : list Video)          (* { ok: true, videos } *)
| OkCategories (categories : list string) (* { ok: true, categories } *)
| Names (categories : list string).       (* Object.keys(videos) *)

(** [videos[category].push(video)] *)
Definition push (category : string) (video : Video) (videos : Catalog)
  : Catalog :=
  alter (λ l, l ++ [video]) category videos.

(** [videos[category].splice(index, 1)] *)
Definition splice (category : string) (index : nat) (videos : Catalog)
  : Catalog :=
  alter (delete index) category videos.

Section handlers.
Context {runtime : Runtime}.

(** [GET /api/videos] *)
Definition get_videos : io (list Video) (Reply Json) :=
  videos ← readVideos;
  mret (res_json (All videos)).

(** [GET /api/videos/:category] (part_000) *)
Definition get_category (category : string)
  : io (list Video) (Reply Json) :=
  videos ← readVideos;
  match prop videos category with
  | Missing => mret (res_status_json 404 (Error "Category not found"))
  | Own l => mret (res_json (Listing l))
  | Inherited => mret (res_json (Foreign category))
  end.

(** [POST /api/videos/:category]: on an inherited name the category is not
    initialised, and [videos[category].push] is not a function. *)
Definition post_video (category : string) (title description url : field)
  : io (list Video) (Reply Json) :=
  if falsy title || falsy url
  then mret (res_status_json 400 (Error "Title and URL are required"))
  else
    videos ← readVideos;
    let videos :=
      match prop videos category with
      | Missing => <[category := []]> videos
      | Own _ | Inherited => videos
      end in
    match prop videos category with
    | Inherited => mret Thrown
    | Own _ | Missing =>
        let videos :=
          push category
            {| title := title; description := Some (or_empty description);
               url := url; thumbnail := None |} videos in
        writeVideos videos;;
        mret (res_json (OkVideos (videos !!! category)))
    end.

(** [DELETE /api/videos/:category/:index]: the guard reads the property
    [index] of [videos[category]], and [splice] starts at the number that
    [index] denotes.  On an inherited name [videos[category].splice] is not
    a function. *)
Definition delete_video (category : string) (index : string)
  : io (list Video) (Reply Json) :=
  videos ← readVideos;
  match prop videos category with
  | Missing => mret (res_status_json 404 (Error "Video not found"))
  | Inherited =>
      if inherited_member category index
      then mret Thrown
      else mret (res_status_json 404 (Error "Video not found"))
  | Own l =>
      match item l index with
      | Absent => mret (res_status_json 404 (Error "Video not found"))
      | Item _ | Length | Member =>
          let videos := splice category (start index) videos in
          writeVideos videos;;
          mret (res_json (OkVideos (videos !!! category)))
      end
  end.

(** [POST /api/categories] (part_000) *)
Definition post_category (name : field) : io (list Video) (Reply Json) :=
  if falsy name
  then mret (res_status_json 400 (Error "Category name is required"))
  else
    let name := default "" name in
    videos ← readVideos;
    match prop videos name with
    | Own _ | Inherited =>
        mret (res_status_json 400 (Error "Category already exists"))
    | Missing =>
        let videos := <[name := []]> videos in
        writeVideos videos;;
        mret (res_json (OkCategories (Object_keys videos)))
    end.

(** [DELETE /api/categories/:name] (part_000): [delete videos[name]]
    removes an own property only. *)
Definition delete_category (name : string)
  : io (list Video) (Reply Json) :=
  videos ← readVideos;
  match prop videos name with
  | Missing => mret (res_status_json 404 (Error "Category not found"))
  | Own _ | Inherited =>
      let videos := delete name videos in
      writeVideos videos;;
      mret (res_json (OkCategories (Object_keys videos)))
  end.

(** [GET /api/categories] (part_000) *)
Definition get_categories : io (list Video) (Reply Json) :=
  videos ← readVideos;
  mret (res_json (Names (Object_keys videos))).

End handlers.

(** The routes of the flat revisions. *)
Inductive route :=
| GetVideos
| GetCategory (category : string)
| PostVideo (category : string) (title description url : field)
| DeleteVideo (category : string) (index : string)
| PostCategory (name : field)
| DeleteCategory (name : string)
| GetCategories.

Definition handler {runtime : Runtime} (r : route)
  : io (list Video) (Reply Json) :=
  match r with
  | GetVideos => get_videos
  | GetCategory category => get_category category
  | PostVideo category title description url =>
      post_video category title description url
  | DeleteVideo category index => delete_video category index
  | PostCategory name => post_category name
  | DeleteCategory name => delete_category name
  | GetCategories => get_categories
  end.

(** The category a mutating route is addressed at. *)
Definition target (r : route) : option string :=
  match r with
  | PostVideo category _ _ _ => Some category
  | DeleteVideo category _ => Some category
  | PostCategory name => Some (default "" name)
  | DeleteCategory name => Some name
  | GetVideos | GetCategory _ | GetCategories => None
  end.

End Flat.

(** ** The thumbnailed schema: [src/server.js] (second and third listing),
       [src/unnamed/part_001] *)

Module Category.
(** A category object: [{ categoryThumbnail, videos }]. *)
Record t := mk {
  categoryThumbnail : field;
  videos : list Video
}.
End Category.

#[export] Instance Category_inhabited : Inhabited Category.t :=
  populate (Category.mk None []).

Module Thumb.

(** [videos.json]: category name to category object. *)
Abbreviation Catalog := (gmap string Category.t).

(** The JSON bodies the handlers send. *)
Inductive Json :=
| Error (error : string)                  (* { error } *)
| All (videos : Catalog)                  (* videos *)
| Listing (videos : list Video)           (* videos[category].videos *)
| Whole (category : Category.t)           (* videosData[category] || ... *)
| Foreign (name : string)                 (* videosData[name], inherited *)
| NoBody                                  (* undefined *)
| OkVideos (videos : list Video)          (* { ok: true, videos } *)
| OkCategories (categories : list string) (* { ok: true, categories } *)
| OkThumbnail (thumbnail : field)         (* { ok: true, thumbnail } *)
| Categories (categories : list (string * string)).
                                    (* [{ name, categoryThumbnail }, ...] *)

(** [videos[category].videos.push(video)] *)
Definition push (category : string) (video : Video) (videos : Catalog)
  : Catalog :=
  alter (λ c, Category.mk (Category.categoryThumbnail c)
                          (Category.videos c ++ [video])) category videos.

(** [videos[category].videos.splice(index, 1)] *)
Definition splice (category : string) (index : nat) (videos : Catalog)
  : Catalog :=
  alter (λ c, Category.mk (Category.categoryThumbnail c)
                          (delete index (Category.videos c))) category videos.

(** [video.thumbnail = thumbnail] *)
Definition set_thumbnail (thumbnail : field) (video : Video) : Video :=
  {| title := title video; description := description video;
     url := url video; thumbnail := thumbnail |}.

(** [videos[category].videos[index].thumbnail = thumbnail] *)
Definition set_video_thumbnail (category : string) (index : nat)
    (thumbnail : field) (videos : Catalog) : Catalog :=
  alter (λ c, Category.mk (Category.categoryThumbnail c)
                (alter (set_thumbnail thumbnail) index (Category.videos c)))
        category videos.

(** [videos[name].categoryThumbnail = thumbnail] *)
Definition set_category_thumbnail (name : string) (thumbnail : field)
    (videos : Catalog) : Catalog :=
  alter (λ c, Category.mk thumbnail (Category.videos c)) name videos.

(** [{ title, description: description || "", url }], and
    [if (thumbnail) video.thumbnail = thumbnail] *)
Definition new_video (title description url thumbnail : field) : Video :=
  let video :=
    {| title := title; description := Some (or_empty description);
       url := url; thumbnail := None |} in
  if truthy thumbnail then set_thumbnail thumbnail video else video.

Section handlers.
Context {runtime : Runtime}.

(** [GET /api/videos] *)
Definition get_videos : io Category.t (Reply Json) :=
  videos ← readVideos;
  mret (res_json (All videos)).

(** [GET /api/videos/:category] (server.js, second and third listing): an
    inherited value has no [videos], and [res.json(undefined)] is sent. *)
Definition get_category (category : string)
  : io Category.t (Reply Json) :=
  videos ← readVideos;
  match prop videos category with
  | Missing => mret (res_status_json 404 (Error "Category not found"))
  | Own c => mret (res_json (Listing (Category.videos c)))
  | Inherited => mret (res_json NoBody)
  end.

(** [GET /api/videos/:category] (part_001):
    [res.json(videosData[category] || { videos: [] })] *)
Definition get_category_part001 (category : string)
  : io Category.t (Reply Json) :=
  videosData ← readVideos;
  match prop videosData category with
  | Own c => mret (res_json (Whole c))
  | Inherited => mret (res_json (Foreign category))
  | Missing => mret (res_json (Whole (Category.mk None [])))
  end.

(** [POST /api/videos/:category] (server.js, second listing): an unknown
    category is created.  On an inherited name it is not, and
    [videos[category].videos] is undefined. *)
Definition post_video_create (category : string)
    (title description url thumbnail : field)
  : io Category.t (Reply Json) :=
  if falsy title || falsy url
  then mret (res_status_json 400 (Error "Title and URL are required"))
  else
    videos ← readVideos;
    let videos :=
      match prop videos category with
      | Missing => <[category := Category.mk (Some "") []]> videos
      | Own _ | Inherited => videos
      end in
    let videoData := new_video title description url thumbnail in
    match prop videos category with
    | Inherited => mret Thrown
    | Own _ | Missing =>
        let videos := push category videoData videos in
        writeVideos videos;;
        mret (res_json (OkVideos (Category.videos (videos !!! category))))
    end.

(** [POST /api/videos/:category] (server.js, third listing): an unknown
    category is refused. *)
Definition post_video_strict (category : string)
    (title description url thumbnail : field)
  : io Category.t (Reply Json) :=
  if falsy title || falsy url
  then mret (res_status_json 400 (Error "Title and URL are required"))
  else
    videosData ← readVideos;
    match prop videosData category with
    | Missing => mret (res_status_json 404 (Error "Category does not exist"))
    | Inherited => mret Thrown
    | Own _ =>
        let newVideo := new_video title description url thumbnail in
        let videosData := push category newVideo videosData in
        writeVideos videosData;;
        mret (res_json
                (OkVideos (Category.videos (videosData !!! category))))
    end.

(** [POST /api/videos/:category] (part_001): the body is not checked. *)
Definition post_video_part001 (category : string)
    (title description url thumbnail : field)
  : io Category.t (Reply Json) :=
  videosData ← readVideos;
  match prop videosData category with
  | Missing => mret (res_status_json 404 (Error "Category does not exist"))
  | Inherited => mret Thrown
  | Own _ =>
      let newVideo := new_video title description url thumbnail in
      let videosData := push category newVideo videosData in
      writeVideos videosData;;
      mret (res_json
              (OkVideos (Category.videos (videosData !!! category))))
  end.

(** [PATCH /api/videos/:category/:index/thumbnail]
    (server.js, second listing).  On an inherited name
    [videos[category].videos] is undefined and the guard throws.  The
    assignment throws on the number [length] (the module is strict), and
    lands on the method when [index] names one: the catalog is then saved
    as it was read. *)
Definition patch_video_thumbnail (category : string) (index : string)
    (thumbnail : field) : io Category.t (Reply Json) :=
  if falsy thumbnail
  then mret (res_status_json 400 (Error "Thumbnail URL is required"))
  else
    videos ← readVideos;
    match prop videos category with
    | Missing => mret (res_status_json 404 (Error "Video not found"))
    | Inherited => mret Thrown
    | Own c =>
        match item (Category.videos c) index with
        | Absent => mret (res_status_json 404 (Error "Video not found"))
        | Length => mret Thrown
        | Item _ =>
            let videos :=
              set_video_thumbnail category (start index) thumbnail videos in
            writeVideos videos;;
            mret (res_json (OkVideos (Category.videos (videos !!! category))))
        | Member =>
            writeVideos videos;;
            mret (res_json (OkVideos (Category.videos (videos !!! category))))
        end
    end.

(** [DELETE /api/videos/:category/:index]: as in the flat schema, but on an
    inherited name the guard itself throws. *)
Definition delete_video (category : string) (index : string)
  : io Category.t (Reply Json) :=
  videos ← readVideos;
  match prop videos category with
  | Missing => mret (res_status_json 404 (Error "Video not found"))
  | Inherited => mret Thrown
  | Own c =>
      match item (Category.videos c) index with
      | Absent => mret (res_status_json 404 (Error "Video not found"))
      | Item _ | Length | Member =>
          let videos := splice category (start index) videos in
          writeVideos videos;;
          mret (res_json (OkVideos (Category.videos (videos !!! category))))
      end
  end.

(** [GET /api/categories] *)
Definition get_categories : io Category.t (Reply Json) :=
  videos ← readVideos;
  let categories :=
    (λ cat, (cat, or_empty (Category.categoryThumbnail (videos !!! cat))))
      <$> Object_keys videos in
  mret (res_json (Categories categories)).

(** [POST /api/categories] *)
Definition post_category (name : field) : io Category.t (Reply Json) :=
  if falsy name
  then mret (res_status_json 400 (Error "Category name is required"))
  else
    let name := default "" name in
    videos ← readVideos;
    match prop videos name with
    | Own _ | Inherited =>
        mret (res_status_json 400 (Error "Category already exists"))
    | Missing =>
        let videos := <[name := Category.mk (Some "") []]> videos in
        writeVideos videos;;
        mret (res_json (OkCategories (Object_keys videos)))
    end.

(** [PATCH /api/categories/:name/thumbnail]: on an inherited name the
    assignment lands on the inherited value, and the catalog is saved as it
    was read. *)
Definition patch_category_thumbnail (name : string) (thumbnail : field)
  : io Category.t (Reply Json) :=
  if falsy thumbnail
  then mret (res_status_json 400 (Error "Thumbnail URL is required"))
  else
    videos ← readVideos;
    match prop videos name with
    | Missing => mret (res_status_json 404 (Error "Category not found"))
    | Own _ | Inherited =>
        let videos := set_category_thumbnail name thumbnail videos in
        writeVideos videos;;
        mret (res_json (OkThumbnail thumbnail))
    end.

(** [DELETE /api/categories/:name]: [delete videos[name]] removes an own
    property only. *)
Definition delete_category (name : string)
  : io Category.t (Reply Json) :=
  videos ← readVideos;
  match prop videos name with
  | Missing => mret (res_status_json 404 (Error "Category not found"))
  | Own _ | Inherited =>
      let videos := delete name videos in
      writeVideos videos;;
      mret (res_json (OkCategories (Object_keys videos)))
  end.

End handlers.

(** The routes of the thumbnailed revisions; where the revisions differ,
    one route per handler body. *)
Inductive route :=
| GetVideos
| GetCategory (category : string)
| GetCategoryPart001 (category : string)
| PostVideoCreate (category : string) (title description url thumbnail : field)
| PostVideoStrict (category : string) (title description url thumbnail : field)
| PostVideoPart001 (category : string) (title description url thumbnail : field)
| PatchVideoThumbnail (category : string) (index : string) (thumbnail : field)
| DeleteVideo (category : string) (index : string)
| GetCategories
| PostCategory (name : field)
| PatchCategoryThumbnail (name : string) (thumbnail : field)
| DeleteCategory (name : string).

Definition handler {runtime : Runtime} (r : route)
  : io Category.t (Reply Json) :=
  match r with
  | GetVideos => get_videos
  | GetCategory category => get_category category
  | GetCategoryPart001 category => get_category_part001 category
  | PostVideoCreate category title description url thumbnail =>
      post_video_create category title description url thumbnail
  | PostVideoStrict category title description url thumbnail =>
      post_video_strict category title description url thumbnail
  | PostVideoPart001 category title description url thumbnail =>
      post_video_part001 category title description url thumbnail
  | PatchVideoThumbnail category index thumbnail =>
      patch_video_thumbnail category index thumbnail
  | DeleteVideo category index => delete_video category index
  | GetCategories => get_categories
  | PostCategory name => post_category name
  | PatchCategoryThumbnail name thumbnail =>
      patch_category_thumbnail name thumbnail
  | DeleteCategory name => delete_category name
  end.

(** The category a mutating route is addressed at. *)
Definition target (r : route) : option string :=
  match r with
  | PostVideoCreate category _ _ _ _
  | PostVideoStrict category _ _ _ _
  | PostVideoPart001 category _ _ _ _
  | PatchVideoThumbnail category _ _
  | DeleteVideo category _ => Some category
  | PostCategory name => Some (default "" name)
  | PatchCategoryThumbnail name _
  | DeleteCategory name => Some name
  | GetVideos | GetCategory _ | GetCategoryPart001 _ | GetCategories => None
  end.

End Thumb.


(** ** A JSON codec

    An instance of the class [Store.JSON] for the examples that are run on a
    concrete disk: [JSON.stringify(_, null, 2)] on catalogs and [JSON.parse]
    on JSON text.  A string of the model is the UTF-8 text of the file.

    The printer escapes what [JSON.stringify] escapes: the quote, the
    backslash and the control characters.  It prints the categories in the
    order of the map, where [JSON.stringify] follows the order of insertion.

    The parser reads the grammar of JSON.  Its result is decoded as a catalog
    of the schema: a key that the handlers never read is dropped, [null]
    under an optional key is read as the absent key, and a document that is
    JSON but no catalog of the schema ([null], an array, a title that is a
    number) is outside the model: the instance answers [None] for it, as for
    text that is not JSON. *)

Module MiniJSON.

#[local] Set Warnings "-register-all".

Inductive json :=
| JNull
| JBool (b : bool)
| JNumber (lexeme : string)
| JString (s : string)
| JArray (items : list json)
| JObject (members : list (string * json)).

Definition quote : ascii := Eval cbv in Ascii.ascii_of_nat 34.
Definition backslash : ascii := Eval cbv in Ascii.ascii_of_nat 92.
Definition newline : ascii := Eval cbv in Ascii.ascii_of_nat 10.

Definition chars (s : string) : list ascii := String.list_ascii_of_string s.

(** *** Printing *)

Definition hex (n : N) : ascii :=
  nth (N.to_nat n) (chars "0123456789abcdef") "0"%char.

(** The escape of one character, as [JSON.stringify] writes it. *)
Definition escape_char (c : ascii) : string :=
  let n := Ascii.N_of_ascii c in
  if Ascii.eqb c quote then String backslash (String quote EmptyString)
  else if Ascii.eqb c backslash
  then String backslash (String backslash EmptyString)
  else if (n =? 8)%N then String backslash "b"
  else if (n =? 9)%N then String backslash "t"
  else if (n =? 10)%N then String backslash "n"
  else if (n =? 12)%N then String backslash "f"
  else if (n =? 13)%N then String backslash "r"
  else if (n <? 32)%N
  then String backslash
         ("u00" +:+ String (hex (n / 16)) (String (hex (n mod 16)) EmptyString))
  else String c EmptyString.

Fixpoint escape (s : string) : string :=
  match s with
  | EmptyString => EmptyString
  | String c s' => escape_char c +:+ escape s'
  end.

Definition print_string (s : string) : string :=
  String quote (escape s +:+ String quote EmptyString).

Fixpoint spaces (n : nat) : string :=
  match n with
  | 0 => EmptyString
  | S n' => String " "%char (spaces n')
  end.

Fixpoint join (sep : string) (l : list string) : string :=
  match l with
  | [] => EmptyString
  | [s] => s
  | s :: l' => s +:+ sep +:+ join sep l'
  end.

Definition block (ind : nat) (open close : string) (lines : list string)
  : string :=
  match lines with
  | [] => open +:+ close
  | _ =>
      open +:+ String newline EmptyString
      +:+ join ("," +:+ String newline EmptyString)
            (List.map (λ l, spaces (ind + 2) +:+ l) lines)
      +:+ String newline EmptyString +:+ spaces ind +:+ close
  end.

Fixpoint print (ind : nat) (j : json) : string :=
  match j with
  | JNull => "null"
  | JBool b => if b then "true" else "false"
  | JNumber lexeme => lexeme
  | JString s => print_string s
  | JArray items => block ind "[" "]" (List.map (print (ind + 2)) items)
  | JObject members =>
      block ind "{" "}"
        (List.map (λ m, print_string (fst m) +:+ ": "
                        +:+ print (ind + 2) (snd m)) members)
  end.

(** *** Parsing *)

Definition is_space (c : ascii) : bool :=
  Ascii.eqb c " "%char || Ascii.eqb c newline
  || Ascii.eqb c (Ascii.ascii_of_nat 9) || Ascii.eqb c (Ascii.ascii_of_nat 13).

Fixpoint skip (cs : list ascii) : list ascii :=
  match cs with
  | c :: cs' => if is_space c then skip cs' else cs
  | [] => []
  end.

(** What a string literal is made of: the bytes of its text, and the
    UTF-16 code units written [\uXXXX]. *)
Inductive code :=
| Byte (c : ascii)
| Unit (n : N).

(** The character that a two-character escape stands for. *)
Definition unescape (e : ascii) : option ascii :=
  if Ascii.eqb e quote || Ascii.eqb e backslash || Ascii.eqb e "/"%char
  then Some e
  else if Ascii.eqb e "b"%char then Some (Ascii.ascii_of_nat 8)
  else if Ascii.eqb e "t"%char then Some (Ascii.ascii_of_nat 9)
  else if Ascii.eqb e "n"%char then Some (Ascii.ascii_of_nat 10)
  else if Ascii.eqb e "f"%char then Some (Ascii.ascii_of_nat 12)
  else if Ascii.eqb e "r"%char then Some (Ascii.ascii_of_nat 13)
  else None.

Definition hex_value (c : ascii) : option N :=
  let n := Ascii.N_of_ascii c in
  if (48 <=? n)%N && (n <=? 57)%N then Some (n - 48)%N
  else if (97 <=? n)%N && (n <=? 102)%N then Some (n - 87)%N
  else if (65 <=? n)%N && (n <=? 70)%N then Some (n - 55)%N
  else None.

Definition hex4 (a b c d : ascii) : option N :=
  a ← hex_value a; b ← hex_value b; c ← hex_value c; d ← hex_value d;
  Some (((a * 16 + b) * 16 + c) * 16 + d)%N.

(** The codes of a string literal after its opening quote.  A control
    character is not allowed unescaped. *)
Fixpoint read_codes (cs : list ascii) : option (list code * list ascii) :=
  match cs with
  | [] => None
  | c :: cs' =>
      if Ascii.eqb c quote then Some ([], cs')
      else if Ascii.eqb c backslash then
        match cs' with
        | e :: cs'' =>
            if Ascii.eqb e "u"%char then
              match cs'' with
              | h1 :: h2 :: h3 :: h4 :: tl =>
                  n ← hex4 h1 h2 h3 h4;
                  '(codes, rest) ← read_codes tl;
                  Some (Unit n :: codes, rest)
              | _ => None
              end
            else
              u ← unescape e;
              '(codes, rest) ← read_codes cs'';
              Some (Byte u :: codes, rest)
        | [] => None
        end
      else if (Ascii.N_of_ascii c <? 32)%N then None
      else
        '(codes, rest) ← read_codes cs';
        Some (Byte c :: codes, rest)
  end.

(** The UTF-8 bytes of a code point. *)
Definition utf8 (n : N) : string :=
  let byte k := Ascii.ascii_of_N k in
  if (n <? 128)%N then String (byte n) EmptyString
  else if (n <? 2048)%N
  then String (byte (192 + n / 64)%N)
         (String (byte (128 + n mod 64)%N) EmptyString)
  else if (n <? 65536)%N
  then String (byte (224 + n / 4096)%N)
         (String (byte (128 + (n / 64) mod 64)%N)
            (String (byte (128 + n mod 64)%N) EmptyString))
  else String (byte (240 + n / 262144)%N)
         (String (byte (128 + (n / 4096) mod 64)%N)
            (String (byte (128 + (n / 64) mod 64)%N)
               (String (byte (128 + n mod 64)%N) EmptyString))).

Definition high_surrogate (n : N) : bool :=
  ((55296 <=? n) && (n <? 56320))%N.

Definition low_surrogate (n : N) : bool :=
  ((56320 <=? n) && (n <? 57344))%N.

(** A code unit on its own; a surrogate without its pair leaves the
    replacement character in the file. *)
Definition utf8_unit (n : N) : string :=
  if high_surrogate n || low_surrogate n then utf8 65533 else utf8 n.

Fixpoint decode (codes : list code) : string :=
  match codes with
  | [] => EmptyString
  | Byte c :: codes' => String c (decode codes')
  | Unit hi :: codes' =>
      match codes' with
      | Unit lo :: codes'' =>
          if high_surrogate hi && low_surrogate lo
          then utf8 (65536 + (hi - 55296) * 1024 + (lo - 56320))%N
               +:+ decode codes''
          else utf8_unit hi +:+ decode codes'
      | _ => utf8_unit hi +:+ decode codes'
      end
  end.

(** The characters of a string literal after its opening quote. *)
Definition read_string (cs : list ascii) : option (string * list ascii) :=
  '(codes, rest) ← read_codes cs;
  Some (decode codes, rest).

(** Numbers, kept as they are written: an optional minus, an integer part
    without a leading zero, an optional fraction and an optional exponent. *)
Definition is_digit (c : ascii) : bool :=
  let n := Ascii.N_of_ascii c in ((48 <=? n) && (n <=? 57))%N.

Fixpoint digits (cs : list ascii) : list ascii * list ascii :=
  match cs with
  | c :: cs' =>
      if is_digit c
      then let '(ds, rest) := digits cs' in (c :: ds, rest)
      else ([], cs)
  | [] => ([], [])
  end.

Definition read_int (cs : list ascii) : option (list ascii * list ascii) :=
  match cs with
  | c :: cs' =>
      if Ascii.eqb c "0"%char then Some ([c], cs')
      else if is_digit c
      then let '(ds, rest) := digits cs' in Some (c :: ds, rest)
      else None
  | [] => None
  end.

Definition read_frac (cs : list ascii) : option (list ascii * list ascii) :=
  match cs with
  | c :: cs' =>
      if Ascii.eqb c "."%char then
        match digits cs' with
        | ([], _) => None
        | (ds, rest) => Some (c :: ds, rest)
        end
      else Some ([], cs)
  | [] => Some ([], [])
  end.

Definition read_exp (cs : list ascii) : option (list ascii * list ascii) :=
  match cs with
  | c :: cs' =>
      if Ascii.eqb c "e"%char || Ascii.eqb c "E"%char then
        let '(sign, cs'') :=
          match cs' with
          | s :: cs'' =>
              if Ascii.eqb s "+"%char || Ascii.eqb s "-"%char
              then ([s], cs'') else ([], cs')
          | [] => ([], [])
          end in
        match digits cs'' with
        | ([], _) => None
        | (ds, rest) => Some (c :: sign ++ ds, rest)
        end
      else Some ([], cs)
  | [] => Some ([], [])
  end.

Definition read_number (cs : list ascii) : option (string * list ascii) :=
  let '(sign, cs) :=
    match cs with
    | c :: cs' => if Ascii.eqb c "-"%char then ([c], cs') else ([], cs)
    | [] => ([], [])
    end in
  '(i, cs) ← read_int cs;
  '(f, cs) ← read_frac cs;
  '(e, cs) ← read_exp cs;
  Some (String.string_of_list_ascii (sign ++ i ++ f ++ e), cs).

(** One value, one or more items up to the closing bracket, one or more
    members up to the closing brace. *)
Fixpoint read_value (fuel : nat) (cs : list ascii)
  : option (json * list ascii) :=
  match fuel with
  | 0 => None
  | S fuel =>
      match skip cs with
      | [] => None
      | c :: rest =>
          if Ascii.eqb c "n"%char then
            match rest with
            | "u"%char :: "l"%char :: "l"%char :: rest => Some (JNull, rest)
            | _ => None
            end
          else if Ascii.eqb c "t"%char then
            match rest with
            | "r"%char :: "u"%char :: "e"%char :: rest =>
                Some (JBool true, rest)
            | _ => None
            end
          else if Ascii.eqb c "f"%char then
            match rest with
            | "a"%char :: "l"%char :: "s"%char :: "e"%char :: rest =>
                Some (JBool false, rest)
            | _ => None
            end
          else if Ascii.eqb c quote then
            '(s, rest) ← read_string rest;
            Some (JString s, rest)
          else if Ascii.eqb c "["%char then
            match skip rest with
            | c' :: rest' =>
                if Ascii.eqb c' "]"%char then Some (JArray [], rest')
                else
                  '(items, rest) ← read_items fuel rest;
                  Some (JArray items, rest)
            | [] => None
            end
          else if Ascii.eqb c "{"%char then
            match skip rest with
            | c' :: rest' =>
                if Ascii.eqb c' "}"%char then Some (JObject [], rest')
                else
                  '(members, rest) ← read_members fuel rest;
                  Some (JObject members, rest)
            | [] => None
            end
          else if Ascii.eqb c "-"%char || is_digit c then
            '(lexeme, rest) ← read_number (c :: rest);
            Some (JNumber lexeme, rest)
          else None
      end
  end
with read_items (fuel : nat) (cs : list ascii)
  : option (list json * list ascii) :=
  match fuel with
  | 0 => None
  | S fuel =>
      '(item, rest) ← read_value fuel cs;
      match skip rest with
      | c :: rest =>
          if Ascii.eqb c ","%char then
            '(items, rest) ← read_items fuel rest;
            Some (item :: items, rest)
          else if Ascii.eqb c "]"%char then Some ([item], rest)
          else None
      | [] => None
      end
  end
with read_members (fuel : nat) (cs : list ascii)
  : option (list (string * json) * list ascii) :=
  match fuel with
  | 0 => None
  | S fuel =>
      match skip cs with
      | c :: rest =>
          if Ascii.eqb c quote then
            '(key, rest) ← read_string rest;
            match skip rest with
            | c :: rest =>
                if Ascii.eqb c ":"%char then
                  '(v, rest) ← read_value fuel rest;
                  match skip rest with
                  | c :: rest =>
                      if Ascii.eqb c ","%char then
                        '(members, rest) ← read_members fuel rest;
                        Some ((key, v) :: members, rest)
                      else if Ascii.eqb c "}"%char then Some ([(key, v)], rest)
                      else None
                  | [] => None
                  end
                else None
            | [] => None
            end
          else None
      | [] => None
      end
  end.

(** A document is one value, with nothing but blanks after it. *)
Definition parse (data : string) : option json :=
  let cs := chars data in
  '(j, rest) ← read_value (S (length cs)) cs;
  match skip rest with
  | [] => Some j
  | _ => None
  end.

(** The fuel that reading a value back takes. *)
Fixpoint size (j : json) : nat :=
  match j with
  | JNull | JBool _ | JNumber _ | JString _ => 1
  | JArray items =>
      S ((fix sizes (l : list json) : nat :=
            match l with
            | [] => 0
            | x :: l' => S (size x + sizes l')
            end) items)
  | JObject members =>
      S ((fix sizes (l : list (string * json)) : nat :=
            match l with
            | [] => 0
            | m :: l' => S (size (snd m) + sizes l')
            end) members)
  end.

Definition size_items (l : list json) : nat :=
  foldr (λ x n, S (size x + n)) 0 l.

Definition size_members (l : list (string * json)) : nat :=
  foldr (λ m n, S (size (snd m) + n)) 0 l.

(** A value without numbers: what the catalogs are printed from. *)
Fixpoint plain (j : json) : bool :=
  match j with
  | JNumber _ => false
  | JNull | JBool _ | JString _ => true
  | JArray items => forallb plain items
  | JObject members => forallb (λ m, plain (snd m)) members
  end.

(** Induction on a value with the items and the members at hand. *)
Fixpoint json_ind2 (P : json → Prop)
    (Hnull : P JNull) (Hbool : ∀ b, P (JBool b))
    (Hnumber : ∀ lexeme, P (JNumber lexeme))
    (Hstring : ∀ s, P (JString s))
    (Harray : ∀ items, Forall P items → P (JArray items))
    (Hobject : ∀ members, Forall (λ m, P (snd m)) members → P (JObject members))
    (j : json) : P j :=
  match j with
  | JNull => Hnull
  | JBool b => Hbool b
  | JNumber lexeme => Hnumber lexeme
  | JString s => Hstring s
  | JArray items =>
      Harray items
        ((fix all (l : list json) : Forall P l :=
            match l with
            | [] => @List.Forall_nil _ P
            | x :: l' =>
                @List.Forall_cons _ P x l'
                  (json_ind2 P Hnull Hbool Hnumber Hstring Harray Hobject x)
                  (all l')
            end) items)
  | JObject members =>
      Hobject members
        ((fix all (l : list (string * json))
            : Forall (λ m, P (snd m)) l :=
            match l with
            | [] => @List.Forall_nil _ _
            | m :: l' =>
                @List.Forall_cons _ (λ m, P (snd m)) m l'
                  (json_ind2 P Hnull Hbool Hnumber Hstring Harray Hobject
                     (snd m))
                  (all l')
            end) members)
  end.

(** What the proofs about the codec speak of: the separator of two lines,
    the lines of an array and of an object, the length of a string, the
    first character of a printed value, the code of a character, and a
    value that is read back from its print. *)
Definition sep : string := "," +:+ String newline EmptyString.

Definition item_lines (ind : nat) (items : list json) : list string :=
  List.map (λ x, spaces (ind + 2) +:+ print (ind + 2) x) items.

Definition member_lines (ind : nat) (members : list (string * json))
  : list string :=
  List.map (λ m, spaces (ind + 2)
                 +:+ (print_string (fst m) +:+ ": " +:+ print (ind + 2) (snd m)))
    members.

Definition len (s : string) : nat := length (chars s).

Definition opens (cs : list ascii) : Prop :=
  ∃ c tl, cs = c :: tl ∧ is_space c = false
    ∧ Ascii.eqb c "]"%char = false ∧ Ascii.eqb c "}"%char = false.

Definition code_of (c : ascii) : code :=
  let n := Ascii.N_of_ascii c in
  if ((n <? 32) && negb ((n =? 8) || (n =? 9) || (n =? 10) || (n =? 12)
                         || (n =? 13)))%N
  then Unit n else Byte c.

Definition reads (j : json) : Prop :=
  ∀ ind rest fuel, size j ≤ fuel →
    read_value fuel (chars (print ind j) ++ rest) = Some (j, rest).

(** *** Catalogs *)

(** In an object read by [JSON.parse] the last member of a name wins. *)
Fixpoint member (key : string) (members : list (string * json))
  : option json :=
  match members with
  | [] => None
  | (k, v) :: members' =>
      match member key members' with
      | Some v' => Some v'
      | None => if String.eqb k key then Some v else None
      end
  end.

Definition of_field (key : string) (x : field) : list (string * json) :=
  match x with
  | Some s => [(key, JString s)]
  | None => []
  end.

Definition to_field (key : string) (members : list (string * json))
  : option field :=
  match member key members with
  | None | Some JNull => Some None
  | Some (JString s) => Some (Some s)
  | Some _ => None
  end.

Definition of_video (v : Video) : json :=
  JObject (of_field "title" (title v) ++ of_field "description" (description v)
           ++ of_field "url" (url v) ++ of_field "thumbnail" (thumbnail v)).

Definition to_video (j : json) : option Video :=
  match j with
  | JObject members =>
      t ← to_field "title" members;
      d ← to_field "description" members;
      u ← to_field "url" members;
      th ← to_field "thumbnail" members;
      Some (mkVideo t d u th)
  | _ => None
  end.

Definition of_videos (l : list Video) : json := JArray (of_video <$> l).

Definition to_videos (j : json) : option (list Video) :=
  match j with
  | JArray items => mapM to_video items
  | _ => None
  end.

Definition of_category (c : Category.t) : json :=
  JObject (of_field "categoryThumbnail" (Category.categoryThumbnail c)
           ++ [("videos", of_videos (Category.videos c))]).

Definition to_category (j : json) : option Category.t :=
  match j with
  | JObject members =>
      th ← to_field "categoryThumbnail" members;
      vs ← member "videos" members ≫= to_videos;
      Some (Category.mk th vs)
  | _ => None
  end.

Definition of_catalog {Cat} (of_cat : Cat → json) (videos : gmap string Cat)
  : json :=
  JObject (prod_map id of_cat <$> map_to_list videos).

Definition to_catalog {Cat} (to_cat : json → option Cat) (j : json)
  : option (gmap string Cat) :=
  match j with
  | JObject members =>
      l ← mapM (λ m, c ← to_cat (snd m); Some (fst m, c)) members;
      Some (list_to_map (reverse l))
  | _ => None
  end.

#[export] Instance flat_json : Store.JSON (gmap string (list Video)) := {|
  Store.JSON_stringify videos := print 0 (of_catalog of_videos videos);
  Store.JSON_parse data := parse data ≫= to_catalog to_videos
|}.

#[export] Instance thumb_json : Store.JSON (gmap string Category.t) := {|
  Store.JSON_stringify videos := print 0 (of_catalog of_category videos);
  Store.JSON_parse data := parse data ≫= to_catalog to_category
|}.

End MiniJSON.

(** ** The order of the store calls in a program *)

(** No [readVideos()] in the program. *)
Fixpoint no_read {Cat A} (p : io Cat A) : Prop :=
  match p with
  | Ret _ => True
  | Read _ => False
  | Write _ k => no_read k
  end.

(** Every [readVideos()] comes before the first [writeVideos]. *)
Fixpoint reads_first {Cat A} (p : io Cat A) : Prop :=
  match p with
  | Ret _ => True
  | Read k => ∀ videos, reads_first (k videos)
  | Write _ k => no_read k
  end.


(** ** Videos as the checked handlers store them *)

(** A video with a title and a url, as [if (!title || !url)] demands. *)
Definition titled (v : Video) : bool := truthy (title v) && truthy (url v).

Definition flat_titled (videos : Flat.Catalog) : Prop :=
  ∀ category l, videos !! category = Some l → Forall (λ v, titled v = true) l.

Definition thumb_titled (videos : Thumb.Catalog) : Prop :=
  ∀ category c, videos !! category = Some c →
    Forall (λ v, titled v = true) (Category.videos c).

(** The routes of the thumbnailed revisions but the create-video route of
    part_001, whose handler has no check of the body. *)
Definition checks_body (r : Thumb.route) : bool :=
  match r with
  | Thumb.PostVideoPart001 _ _ _ _ _ => false
  | _ => true
  end.

(** * Properties *)

(** ** The store *)

Section store_facts.
Context {Cat : Type} {codec : Store.JSON (gmap string Cat)}.

Lemma readVideos_load (d : Store.Disk) :
  Store.readVideos d = Store.Ok (Store.load (Cat:=Cat) d).
Proof.
  unfold Store.load, Store.readVideos, Store.try_catch.
  by destruct (Store.readVideos_try d).
Qed.

Lemma writeVideos_save (videos : gmap string Cat) (d : Store.Disk) :
  Store.writeVideos videos d = Store.Ok (Store.save videos d).
Proof.
  unfold Store.save, Store.writeVideos, Store.try_catch.
  by destruct (Store.writeFile d _).
Qed.

(** The try block of [readVideos] fails in exactly three ways. *)
Lemma readVideos_try_Throw (d : Store.Disk) (e : Store.error) :
  Store.readVideos_try (Cat:=Cat) d = Store.Throw e ↔
    (Store.contents d = None ∧ e = Store.ENOENT)
    ∨ (is_Some (Store.contents d) ∧ Store.readable d = false
       ∧ e = Store.EACCES)
    ∨ (∃ data, Store.contents d = Some data ∧ Store.readable d = true
         ∧ Store.JSON_parse (C:=gmap string Cat) data = None
         ∧ e = Store.SyntaxError).
Proof.
  unfold Store.readVideos_try, Store.readFile, Store.bind.
  destruct (Store.contents d) as [data|]; [destruct (Store.readable d)|];
    simpl.
  - destruct (Store.JSON_parse data) eqn:Hp; split.
    + done.
    + intros [[? _]|[(_ & ? & _)|(data' & ? & _ & ? & _)]]; simplify_eq.
    + intros [= <-]. right; right. by exists data.
    + intros [[? _]|[(_ & ? & _)|(data' & ? & _ & ? & ->)]]; by simplify_eq.
  - split.
    + intros [= <-]. right; left. eauto.
    + intros [[? _]|[(_ & _ & ->)|(data' & _ & ? & _)]]; by simplify_eq.
  - split.
    + intros [= <-]. by left.
    + intros [[_ ->]|[([? ?] & _)|(data' & ? & _)]]; by simplify_eq.
Qed.

(** C6: when the file is absent, when it cannot be read, and when its
    content does not parse as JSON, [readVideos] returns the empty object;
    it returns normally, nothing is thrown to the caller. *)
Theorem readVideos_failure (d : Store.Disk) :
  Store.contents d = None
  ∨ Store.readable d = false
  ∨ (∃ data, Store.contents d = Some data
       ∧ Store.JSON_parse (C:=gmap string Cat) data = None) →
  Store.readVideos (Cat:=Cat) d = Store.Ok ∅.
Proof.
  unfold Store.readVideos, Store.readVideos_try, Store.readFile.
  intros [Habsent|[Hperm|(data & Hdata & Hparse)]].
  - by rewrite Habsent.
  - rewrite Hperm. by destruct (Store.contents d).
  - rewrite Hdata. destruct (Store.readable d); simpl; [|done].
    by rewrite Hparse.
Qed.

(** Whatever the try block throws is caught. *)
Lemma readVideos_catch (d : Store.Disk) (e : Store.error) :
  Store.readVideos_try (Cat:=Cat) d = Store.Throw e →
  Store.readVideos (Cat:=Cat) d = Store.Ok ∅.
Proof. unfold Store.readVideos. by intros ->. Qed.

Lemma load_parsed (d : Store.Disk) (data : string) (videos : gmap string Cat) :
  Store.contents d = Some data → Store.readable d = true →
  Store.JSON_parse data = Some videos →
  Store.load d = videos.
Proof.
  unfold Store.load, Store.readVideos, Store.readVideos_try, Store.readFile.
  intros -> -> Hparse. simpl. by rewrite Hparse.
Qed.

Lemma save_writable (videos : gmap string Cat) (d : Store.Disk) :
  Store.writable d = true →
  Store.save videos d =
    Store.mkDisk (Some (Store.JSON_stringify videos)) (Store.readable d) true.
Proof.
  unfold Store.save, Store.writeVideos, Store.writeFile. by intros ->.
Qed.

(** A failed write leaves the file as it was. *)
Lemma save_readonly (videos : gmap string Cat) (d : Store.Disk) :
  Store.writable d = false → Store.save videos d = d.
Proof.
  unfold Store.save, Store.writeVideos, Store.writeFile. by intros ->.
Qed.

(** What the next request loads is the catalog that was saved, when the
    file can be written and read and the codec reads the catalog back. *)
Lemma load_save (videos : gmap string Cat) (d : Store.Disk) :
  Store.writable d = true →
  Store.readable d = true →
  Store.JSON_parse (Store.JSON_stringify videos) = Some videos →
  Store.load (Store.save videos d) = videos.
Proof.
  intros Hw Hr Hcodec. rewrite save_writable by done.
  by apply (load_parsed _ (Store.JSON_stringify videos)).
Qed.


End store_facts.

(** C6, on three disks: no file; a file that may not be read; a file whose
    content is cut short. *)
Lemma readVideos_failure_witness :
  Store.readVideos (codec:=MiniJSON.thumb_json)
    (Store.mkDisk None true true) = Store.Ok ∅
  ∧ Store.readVideos (codec:=MiniJSON.thumb_json)
      (Store.mkDisk (Some "{}") false true) = Store.Ok ∅
  ∧ Store.readVideos (codec:=MiniJSON.thumb_json)
      (Store.mkDisk (Some "{ oops") true true) = Store.Ok ∅.
Proof.
  split; [|split]; apply readVideos_failure; simpl.
  - by left.
  - right; by left.
  - right; right. exists "{ oops". split; [reflexivity | vm_compute; reflexivity].
Defined.

(** ** The codec reads back what it prints *)

Section codec_facts.
Import MiniJSON.

Lemma chars_app (s1 s2 : string) : chars (s1 +:+ s2) = chars s1 ++ chars s2.
Proof. induction s1 as [|c s1 IH]; simpl; [done|]. unfold chars in *. simpl. by rewrite IH. Qed.

Lemma skip_spaces (n : nat) (cs : list ascii) :
  skip (chars (spaces n) ++ cs) = skip cs.
Proof. induction n as [|n IH]; [done|]. simpl. exact IH. Qed.

Lemma skip_idem (cs : list ascii) : skip (skip cs) = skip cs.
Proof.
  induction cs as [|c cs IH]; [done|]. simpl.
  destruct (is_space c) eqn:Hc; [done|]. simpl. by rewrite Hc.
Qed.

Lemma read_value_skip (fuel : nat) (cs : list ascii) :
  read_value fuel (skip cs) = read_value fuel cs.
Proof. destruct fuel; [done|]. simpl. by rewrite skip_idem. Qed.

Lemma read_items_skip (fuel : nat) (cs : list ascii) :
  read_items fuel (skip cs) = read_items fuel cs.
Proof. destruct fuel; [done|]. simpl. by rewrite read_value_skip. Qed.

Lemma read_members_skip (fuel : nat) (cs : list ascii) :
  read_members fuel (skip cs) = read_members fuel cs.
Proof. destruct fuel; [done|]. simpl. by rewrite skip_idem. Qed.

Lemma read_value_blank (fuel : nat) (c : ascii) (cs : list ascii) :
  is_space c = true → read_value fuel (c :: cs) = read_value fuel cs.
Proof.
  intros Hc. rewrite <-read_value_skip. simpl. rewrite Hc.
  apply read_value_skip.
Qed.

Lemma read_items_blank (fuel : nat) (c : ascii) (cs : list ascii) :
  is_space c = true → read_items fuel (c :: cs) = read_items fuel cs.
Proof.
  intros Hc. rewrite <-read_items_skip. simpl. rewrite Hc.
  apply read_items_skip.
Qed.

Lemma read_members_blank (fuel : nat) (c : ascii) (cs : list ascii) :
  is_space c = true → read_members fuel (c :: cs) = read_members fuel cs.
Proof.
  intros Hc. rewrite <-read_members_skip. simpl. rewrite Hc.
  apply read_members_skip.
Qed.

Lemma read_codes_escape_char (c : ascii) (rest : list ascii) :
  read_codes (chars (escape_char c) ++ rest)
  = '(codes, r) ← read_codes rest; Some (code_of c :: codes, r).
Proof. destruct c as [[] [] [] [] [] [] [] []]; reflexivity. Qed.

Lemma decode_code_of (c : ascii) (codes : list code) :
  decode (code_of c :: codes) = String c (decode codes).
Proof.
  destruct c as [[] [] [] [] [] [] [] []]; try reflexivity;
    destruct codes as [|[] codes]; reflexivity.
Qed.

Lemma read_codes_escape (s : string) (rest : list ascii) :
  read_codes (chars (escape s) ++ quote :: rest)
  = Some (code_of <$> chars s, rest).
Proof.
  induction s as [|c s IH]; [done|].
  cbn [escape]. rewrite chars_app, <-app_assoc, read_codes_escape_char, IH.
  done.
Qed.

Lemma decode_codes (s : string) : decode (code_of <$> chars s) = s.
Proof.
  induction s as [|c s IH]; [done|].
  change (chars (String c s)) with (c :: chars s).
  rewrite fmap_cons, decode_code_of. by rewrite IH.
Qed.

Lemma read_string_escape (s : string) (rest : list ascii) :
  read_string (chars (escape s) ++ quote :: rest) = Some (s, rest).
Proof.
  unfold read_string. rewrite read_codes_escape. simpl.
  by rewrite decode_codes.
Qed.

Lemma block_opens ind (open close : string) lines rest c :
  chars open = [c] → is_space c = false →
  Ascii.eqb c "]"%char = false → Ascii.eqb c "}"%char = false →
  opens (chars (block ind open close lines) ++ rest).
Proof.
  intros Ho ? ? ?. exists c. unfold block.
  destruct lines; rewrite !chars_app, Ho; simpl; eauto.
Qed.

Lemma print_opens ind j rest :
  plain j = true → opens (chars (print ind j) ++ rest).
Proof.
  destruct j as [|[]| | | |]; simpl; try done; intros _.
  - by eexists _, _.
  - by eexists _, _.
  - by eexists _, _.
  - by eexists _, _.
  - by eapply block_opens.
  - by eapply block_opens.
Qed.

Lemma plain_items x items :
  plain (JArray (x :: items)) = true →
  plain x = true ∧ plain (JArray items) = true.
Proof. simpl. by intros [??]%andb_prop. Qed.

Lemma plain_members m members :
  plain (JObject (m :: members)) = true →
  plain (snd m) = true ∧ plain (JObject members) = true.
Proof. simpl. by intros [??]%andb_prop. Qed.

Lemma skip_opens cs : opens cs → skip cs = cs.
Proof. intros (c & tl & -> & Hc & _). simpl. by rewrite Hc. Qed.

Lemma read_value_spaces fuel n cs :
  read_value fuel (chars (spaces n) ++ cs) = read_value fuel cs.
Proof.
  by rewrite <-read_value_skip, skip_spaces, read_value_skip.
Qed.

Lemma join_map_cons {A} (s : string) (f : A → string) x y l :
  join s (List.map f (x :: y :: l)) = f x +:+ s +:+ join s (List.map f (y :: l)).
Proof. done. Qed.

Lemma item_lines_eq ind items :
  List.map (λ l, spaces (ind + 2) +:+ l) (List.map (print (ind + 2)) items)
  = item_lines ind items.
Proof. unfold item_lines. by rewrite List.map_map. Qed.

Lemma read_items_print items :
  Forall reads items → items ≠ [] →
  ∀ ind rest fuel, size_items items ≤ fuel →
    read_items fuel
      (chars (join sep (item_lines ind items))
       ++ newline :: chars (spaces ind) ++ "]"%char :: rest)
    = Some (items, rest).
Proof.
  induction 1 as [|x items Hx Hitems IH]; [done|]. intros _ ind rest fuel Hfuel.
  destruct fuel as [|fuel]; [simpl in Hfuel; lia|].
  simpl in Hfuel.
  destruct items as [|y items].
  - simpl. rewrite chars_app, <-app_assoc, read_value_spaces.
    rewrite Hx by lia. simpl.
    rewrite skip_spaces. simpl. done.
  - unfold item_lines. rewrite join_map_cons.
    fold (item_lines ind (y :: items)).
    remember (join sep (item_lines ind (y :: items))) as more eqn:Hmore.
    cbn [read_items].
    rewrite !chars_app, <-!app_assoc, read_value_spaces.
    rewrite Hx by lia. simpl.
    rewrite read_items_blank by done.
    subst more. rewrite IH; [done|done|]. lia.
Qed.

Lemma member_lines_eq ind members :
  List.map (λ l, spaces (ind + 2) +:+ l)
    (List.map (λ m, print_string (fst m) +:+ ": " +:+ print (ind + 2) (snd m))
       members)
  = member_lines ind members.
Proof. unfold member_lines. by rewrite List.map_map. Qed.

Lemma chars_print_string s rest :
  chars (print_string s) ++ rest = quote :: chars (escape s) ++ quote :: rest.
Proof.
  unfold print_string. change (chars (String quote ?x)) with (quote :: chars x).
  rewrite chars_app. simpl. by rewrite <-app_assoc.
Qed.

Lemma read_members_print members :
  Forall (λ m, reads (snd m)) members → members ≠ [] →
  ∀ ind rest fuel, size_members members ≤ fuel →
    read_members fuel
      (chars (join sep (member_lines ind members))
       ++ newline :: chars (spaces ind) ++ "}"%char :: rest)
    = Some (members, rest).
Proof.
  induction 1 as [|[key v] members Hv Hmembers IH]; [done|].
  intros _ ind rest fuel Hfuel.
  destruct fuel as [|fuel]; [simpl in Hfuel; lia|].
  simpl in Hfuel, Hv.
  destruct members as [|m members].
  - simpl. rewrite !chars_app, <-!app_assoc, chars_print_string, skip_spaces.
    simpl. rewrite read_string_escape. simpl.
    rewrite read_value_blank by done.
    rewrite Hv by lia. simpl. rewrite skip_spaces. simpl. done.
  - unfold member_lines. rewrite join_map_cons.
    fold (member_lines ind (m :: members)).
    remember (join sep (member_lines ind (m :: members))) as more eqn:Hmore.
    cbn [read_members].
    rewrite !chars_app, <-!app_assoc, chars_print_string, skip_spaces.
    simpl. rewrite read_string_escape. simpl.
    rewrite read_value_blank by done.
    rewrite Hv by lia. simpl.
    rewrite read_members_blank by done.
    subst more. rewrite IH; [done|done|]. lia.
Qed.

Lemma size_array items : size (JArray items) = S (size_items items).
Proof. reflexivity. Qed.

Lemma size_object members : size (JObject members) = S (size_members members).
Proof. reflexivity. Qed.

Lemma skip_item_lines ind x items rest :
  plain x = true →
  opens (skip (chars (join sep (item_lines ind (x :: items))) ++ rest)).
Proof.
  intros Hx. destruct items as [|y items].
  - simpl. rewrite chars_app, <-app_assoc, skip_spaces.
    rewrite skip_opens; by apply print_opens.
  - unfold item_lines. rewrite join_map_cons, !chars_app, <-!app_assoc.
    rewrite skip_spaces. rewrite skip_opens; by apply print_opens.
Qed.

Lemma chars_block ind (open close : string) lines rest :
  lines ≠ [] →
  chars (block ind open close lines) ++ rest =
    chars open ++ newline
    :: chars (join sep (List.map (λ l, spaces (ind + 2) +:+ l) lines))
    ++ newline :: chars (spaces ind) ++ chars close ++ rest.
Proof.
  intros Hlines. unfold block. destruct lines as [|line lines]; [done|].
  by rewrite !chars_app, <-!app_assoc.
Qed.

Lemma skip_member_lines ind m members rest :
  ∃ c tl, skip (chars (join sep (member_lines ind (m :: members))) ++ rest)
          = c :: tl ∧ Ascii.eqb c "}"%char = false.
Proof.
  exists quote. destruct members as [|m' members].
  - simpl. rewrite !chars_app, <-!app_assoc, chars_print_string, skip_spaces.
    by eexists.
  - unfold member_lines. rewrite join_map_cons, !chars_app, <-!app_assoc.
    rewrite chars_print_string, skip_spaces. by eexists.
Qed.

Lemma print_reads (j : json) : plain j = true → reads j.
Proof.
  induction j as [|b|lexeme|s|items IH|members IH] using json_ind2;
    intros Hplain ind rest fuel Hfuel.
  - destruct fuel; [simpl in Hfuel; lia|]. done.
  - destruct fuel; [simpl in Hfuel; lia|]. by destruct b.
  - done.
  - destruct fuel; [simpl in Hfuel; lia|].
    cbn [print]. rewrite chars_print_string. simpl.
    by rewrite read_string_escape.
  - rewrite size_array in Hfuel.
    destruct fuel; [lia|]. cbn [print].
    destruct items as [|x items]; [done|].
    assert (Forall reads (x :: items)) as Hreads.
    { clear -IH Hplain. induction IH as [|y l Hy Hl IHl]; [done|].
      apply plain_items in Hplain as [??]. constructor; auto. }
    apply plain_items in Hplain as [Hx _].
    rewrite chars_block by done. rewrite item_lines_eq.
    remember (join sep (item_lines ind (x :: items))) as body eqn:Hbody.
    simpl. subst body.
    destruct (skip_item_lines ind x items
                (newline :: chars (spaces ind) ++ "]"%char :: rest) Hx)
      as (c & tl & -> & _ & Hc & _).
    rewrite Hc. rewrite read_items_blank by done.
    rewrite read_items_print; [done|done|done|lia].
  - rewrite size_object in Hfuel.
    destruct fuel; [lia|]. cbn [print].
    destruct members as [|m members]; [done|].
    assert (Forall (λ m, reads (snd m)) (m :: members)) as Hreads.
    { clear -IH Hplain. induction IH as [|y l Hy Hl IHl]; [done|].
      apply plain_members in Hplain as [??]. constructor; auto. }
    rewrite chars_block by done. rewrite member_lines_eq.
    remember (join sep (member_lines ind (m :: members))) as body eqn:Hbody.
    simpl. subst body.
    destruct (skip_member_lines ind m members
                (newline :: chars (spaces ind) ++ "}"%char :: rest))
      as (c & tl & -> & Hc).
    rewrite Hc. rewrite read_members_blank by done.
    rewrite read_members_print; [done|done|done|lia].
Qed.

(** *** The fuel that [parse] gives is enough *)

Lemma len_app s1 s2 : len (s1 +:+ s2) = len s1 + len s2.
Proof. unfold len. by rewrite chars_app, length_app. Qed.

Lemma len_spaces n : len (spaces n) = n.
Proof. induction n as [|n IH]; [done|]. unfold len in *. simpl. by rewrite IH. Qed.

Lemma len_join_lines {A} (f : A → string) (size_of : A → nat) (l : list A) :
  Forall (λ x, S (size_of x) ≤ len (f x)) l →
  foldr (λ x n, S (size_of x + n)) 0 l ≤ len (join sep (List.map f l)).
Proof.
  induction 1 as [|x l Hx Hl IH]; [simpl; lia|].
  destruct l as [|y l].
  - simpl in *. lia.
  - rewrite join_map_cons, !len_app.
    change (foldr ?g 0 (x :: ?l')) with (S (size_of x + foldr g 0 l')). lia.
Qed.

Lemma len_block ind (open close : string) lines :
  lines ≠ [] →
  len (block ind open close lines) =
    len open + 1
    + len (join sep (List.map (λ l, spaces (ind + 2) +:+ l) lines))
    + 1 + ind + len close.
Proof.
  intros Hlines. unfold block. destruct lines as [|line lines]; [done|].
  rewrite !len_app, len_spaces.
  change (len (String newline "")) with 1. unfold sep. lia.
Qed.

Lemma size_le_len (j : json) :
  plain j = true → ∀ ind, size j ≤ len (print ind j).
Proof.
  induction j as [|b|lexeme|s|items IH|members IH] using json_ind2;
    intros Hplain ind.
  - unfold len. simpl. lia.
  - unfold len. destruct b; simpl; lia.
  - done.
  - unfold len. simpl. lia.
  - rewrite size_array. cbn [print].
    destruct items as [|x items]; [unfold len; simpl; lia|].
    rewrite len_block by done. rewrite item_lines_eq.
    pose proof (len_join_lines
                  (λ x, spaces (ind + 2) +:+ print (ind + 2) x) size
                  (x :: items)) as Hlen.
    unfold size_items, item_lines. 
    assert (len "[" = 1) as -> by done.
    etrans; [|apply Nat.le_add_r]. etrans; [|apply Nat.le_add_r].
    etrans; [|apply Nat.le_add_r]. apply le_n_S.
    etrans; [apply Hlen|lia].
    clear Hlen. induction IH as [|y l Hy Hl IHl]; [done|].
    apply plain_items in Hplain as [??]. constructor; [|by auto]. simpl.
    rewrite len_app, len_spaces. specialize (Hy ltac:(done) (ind + 2)). lia.
  - rewrite size_object. cbn [print].
    destruct members as [|m members]; [unfold len; simpl; lia|].
    rewrite len_block by done. rewrite member_lines_eq.
    pose proof (len_join_lines
                  (λ m, spaces (ind + 2)
                        +:+ (print_string (fst m) +:+ ": "
                             +:+ print (ind + 2) (snd m)))
                  (λ m, size (snd m)) (m :: members)) as Hlen.
    unfold size_members, member_lines.
    assert (len "{" = 1) as -> by done.
    etrans; [|apply Nat.le_add_r]. etrans; [|apply Nat.le_add_r].
    etrans; [|apply Nat.le_add_r]. apply le_n_S.
    etrans; [apply Hlen|lia].
    clear Hlen. induction IH as [|y l Hy Hl IHl]; [done|].
    apply plain_members in Hplain as [??]. constructor; [|by auto]. simpl.
    rewrite !len_app, len_spaces. specialize (Hy ltac:(done) (ind + 2)). lia.
Qed.

Lemma parse_print (j : json) : plain j = true → parse (print 0 j) = Some j.
Proof.
  intros Hplain. unfold parse.
  pose proof (print_reads j Hplain 0 [] (S (length (chars (print 0 j)))))
    as Hread.
  rewrite app_nil_r in Hread. rewrite Hread; [done|].
  pose proof (size_le_len j Hplain 0). unfold len in *. lia.
Qed.

Lemma plain_of_videos (l : list Video) : plain (of_videos l) = true.
Proof.
  unfold of_videos. simpl. induction l as [|v l IH]; [done|].
  rewrite fmap_cons. simpl. rewrite IH, andb_true_r.
  by destruct v as [[t|] [d|] [u|] [th|]].
Qed.

Lemma plain_of_category (c : Category.t) : plain (of_category c) = true.
Proof.
  destruct c as [[th|] l]; pose proof (plain_of_videos l) as Hl;
    unfold of_category, of_videos in *; simpl in *; by rewrite Hl.
Qed.

Lemma plain_of_catalog {Cat} (of_cat : Cat → json) (videos : gmap string Cat) :
  (∀ c, plain (of_cat c) = true) → plain (of_catalog of_cat videos) = true.
Proof.
  intros Hcat. unfold of_catalog. simpl.
  induction (map_to_list videos) as [|[k c] l IH]; [done|].
  rewrite fmap_cons. simpl. by rewrite Hcat, IH.
Qed.

(** *** Catalogs *)

Lemma to_video_of_video (v : Video) : to_video (of_video v) = Some v.
Proof. by destruct v as [[t|] [d|] [u|] [th|]]. Qed.

Lemma to_videos_of_videos (l : list Video) : to_videos (of_videos l) = Some l.
Proof.
  unfold to_videos, of_videos. apply mapM_fmap_Some. apply to_video_of_video.
Qed.

Lemma to_category_of_category (c : Category.t) :
  to_category (of_category c) = Some c.
Proof.
  destruct c as [th l]. unfold to_category, of_category.
  cbn [Category.categoryThumbnail Category.videos].
  assert (to_field "categoryThumbnail"
            (of_field "categoryThumbnail" th ++ [("videos", of_videos l)])
          = Some th) as -> by (by destruct th).
  assert (member "videos"
            (of_field "categoryThumbnail" th ++ [("videos", of_videos l)])
          = Some (of_videos l)) as -> by (by destruct th).
  cbn [mbind option_bind]. by rewrite to_videos_of_videos.
Qed.

Lemma to_catalog_of_catalog {Cat} (of_cat : Cat → json)
    (to_cat : json → option Cat) (videos : gmap string Cat) :
  (∀ c, to_cat (of_cat c) = Some c) →
  to_catalog to_cat (of_catalog of_cat videos) = Some videos.
Proof.
  intros Hcat. unfold to_catalog, of_catalog.
  rewrite (mapM_fmap_Some _ (prod_map id of_cat)).
  - simpl. f_equal.
    rewrite (list_to_map_proper _ (map_to_list videos)).
    + apply list_to_map_to_list.
    + rewrite reverse_Permutation. apply NoDup_fst_map_to_list.
    + apply reverse_Permutation.
  - intros [k c]. simpl. by rewrite Hcat.
Qed.

Lemma flat_parse_stringify (videos : Flat.Catalog) :
  Store.JSON_parse (JSON:=flat_json) (Store.JSON_stringify videos)
  = Some videos.
Proof.
  cbn [Store.JSON_parse Store.JSON_stringify flat_json].
  rewrite parse_print by apply plain_of_catalog, plain_of_videos.
  cbn [mbind option_bind].
  apply to_catalog_of_catalog, to_videos_of_videos.
Qed.

Lemma thumb_parse_stringify (videos : Thumb.Catalog) :
  Store.JSON_parse (JSON:=thumb_json) (Store.JSON_stringify videos)
  = Some videos.
Proof.
  cbn [Store.JSON_parse Store.JSON_stringify thumb_json].
  rewrite parse_print by apply plain_of_catalog, plain_of_category.
  cbn [mbind option_bind].
  apply to_catalog_of_catalog, to_category_of_category.
Qed.

End codec_facts.

(** ** Programs: execution on a disk against the catalogs loaded and saved *)

Section run_facts.
Context {Cat : Type} {codec : Store.JSON (gmap string Cat)}.

Lemma run_no_read {A} (p : io Cat A) (loaded : gmap string Cat)
    (d : Store.Disk) :
  no_read p →
  run p d = Store.Ok (result p loaded, Store.commit (saved p loaded) d).
Proof.
  unfold result, saved. revert d.
  induction p as [a|k IH|videos k IH]; intros d Hp; simpl in *.
  - done.
  - done.
  - rewrite writeVideos_save. simpl. rewrite IH by done.
    by destruct (outcome k loaded).
Qed.

Lemma run_reads_first {A} (p : io Cat A) (d : Store.Disk) :
  reads_first p →
  run p d =
    Store.Ok (result p (Store.load d),
              Store.commit (saved p (Store.load d)) d).
Proof.
  induction p as [a|k IH|videos k _]; intros Hp.
  - done.
  - simpl. rewrite readVideos_load. simpl. by apply IH.
  - by apply run_no_read.
Qed.

(** A program that saves once leaves the disk of that save. *)
Lemma run_saved_once {A} (p : io Cat A) (d : Store.Disk)
    (videos' : gmap string Cat) :
  reads_first p → saved p (Store.load d) = [videos'] →
  run p d = Store.Ok (result p (Store.load d), Store.save videos' d).
Proof. intros Hp Hs. rewrite run_reads_first by done. by rewrite Hs. Qed.

End run_facts.

(** ** The store over the codec *)

(** With the codec of [MiniJSON], on a file that can be written and read,
    the next request loads the catalog that was saved. *)
Lemma flat_load_save (videos : Flat.Catalog) (d : Store.Disk) :
  Store.writable d = true → Store.readable d = true →
  Store.load (codec:=MiniJSON.flat_json)
    (Store.save (codec:=MiniJSON.flat_json) videos d) = videos.
Proof. intros Hw Hr. apply load_save; [done|done|apply flat_parse_stringify]. Qed.

Lemma thumb_load_save (videos : Thumb.Catalog) (d : Store.Disk) :
  Store.writable d = true → Store.readable d = true →
  Store.load (codec:=MiniJSON.thumb_json)
    (Store.save (codec:=MiniJSON.thumb_json) videos d) = videos.
Proof. intros Hw Hr. apply load_save; [done|done|apply thumb_parse_stringify]. Qed.

(** ** [Object.keys] *)

Lemma elem_of_Object_keys {Cat} (videos : gmap string Cat) (name : string) :
  name ∈ Object_keys videos ↔ is_Some (videos !! name).
Proof.
  unfold Object_keys. rewrite list_elem_of_fmap. split.
  - intros ([k c] & -> & Hin). apply elem_of_map_to_list in Hin. eauto.
  - intros [c Hc]. exists (name, c). by rewrite elem_of_map_to_list.
Qed.

Lemma NoDup_Object_keys {Cat} (videos : gmap string Cat) :
  NoDup (Object_keys videos).
Proof. apply NoDup_fst_map_to_list. Qed.

Lemma filter_eq_absent (l : list string) (x : string) :
  x ∉ l → filter (x =.) l = [].
Proof.
  induction l as [|y l IH]; [done|].
  intros [Hxy Hx]%not_elem_of_cons.
  rewrite filter_cons, decide_False by done. by apply IH.
Qed.

(** A name of the catalog is listed once. *)
Lemma Object_keys_once {Cat} (videos : gmap string Cat) (name : string) :
  is_Some (videos !! name) →
  length (filter (name =.) (Object_keys videos)) = 1.
Proof.
  intros Hin%elem_of_Object_keys.
  pose proof (NoDup_Object_keys videos) as Hnd.
  induction Hnd as [|k l Hk Hnd IH]; [by apply elem_of_nil in Hin|].
  rewrite filter_cons. apply elem_of_cons in Hin as [->|Hin].
  - rewrite decide_True by done. simpl. by rewrite filter_eq_absent.
  - rewrite decide_False by (intros <-; done). by apply IH.
Qed.

(** ** Looking a name up *)

Section prop_facts.
Context {runtime : Runtime} {A : Type}.

Lemma prop_own (videos : gmap string A) name a :
  videos !! name = Some a → prop videos name = Own a.
Proof. intros H. unfold prop. by rewrite H. Qed.

Lemma prop_missing (videos : gmap string A) name :
  videos !! name = None → object_inherits name = false →
  prop videos name = Missing.
Proof. intros H Hi. unfold prop. by rewrite H, Hi. Qed.

Lemma prop_inherited (videos : gmap string A) name :
  videos !! name = None → object_inherits name = true →
  prop videos name = Inherited.
Proof. intros H Hi. unfold prop. by rewrite H, Hi. Qed.

Lemma prop_insert (videos : gmap string A) name a :
  prop (<[name := a]> videos) name = Own a.
Proof. apply prop_own, lookup_insert_eq. Qed.

Lemma prop_Own_inv (videos : gmap string A) name a :
  prop videos name = Own a → videos !! name = Some a.
Proof. unfold prop. repeat case_match; naive_solver. Qed.

End prop_facts.

(** ** The index segment *)

Lemma array_index_numeral (n : nat) : array_index (numeral n) = Some n.
Proof.
  unfold array_index, numeral.
  rewrite DecimalString.NilEmpty.usu, DecimalNat.Unsigned.of_to.
  by rewrite String.eqb_refl.
Qed.

Lemma start_numeral (n : nat) : start (numeral n) = n.
Proof. unfold start. by rewrite array_index_numeral. Qed.

Section item_facts.
Context {runtime : Runtime}.

Lemma item_numeral (l : list Video) (n : nat) v :
  l !! n = Some v → item l (numeral n) = Item v.
Proof. intros Hn. unfold item. by rewrite array_index_numeral, Hn. Qed.

Lemma item_numeral_out (l : list Video) (n : nat) :
  l !! n = None → item l (numeral n) = Absent.
Proof. intros Hn. unfold item. by rewrite array_index_numeral, Hn. Qed.

Lemma item_length (v : Video) (l : list Video) :
  item (v :: l) "length" = Length.
Proof. reflexivity. Qed.

Lemma item_length_nil : item [] "length" = Absent.
Proof. reflexivity. Qed.

Lemma start_length : start "length" = 0.
Proof. reflexivity. Qed.

Lemma item_no_property (l : list Video) (index : string) :
  array_index index = None → index ≠ "length" →
  array_inherits index = false → item l index = Absent.
Proof.
  intros Hn Hl Ha. unfold item.
  by rewrite Hn, (proj2 (String.eqb_neq index "length")), Ha.
Qed.

End item_facts.

Lemma alter_absent {Cat} (f : Cat → Cat) (videos : gmap string Cat) k :
  videos !! k = None → alter f k videos = videos.
Proof.
  intros Hk. apply map_eq. intros k'. destruct (decide (k' = k)) as [->|].
  - by rewrite lookup_alter_eq, Hk.
  - by rewrite lookup_alter_ne.
Qed.

(** ** The flat revisions *)

Section flat_facts.
Import Flat.
Context {runtime : Runtime}.

Lemma flat_reads_first (r : route) : reads_first (handler r).
Proof.
  destruct r; cbn; unfold post_video, delete_video, post_category; cbn;
    repeat case_match; cbn; try done; intros videos; repeat case_match; done.
Qed.

(** *** What each handler does with the catalog it loaded *)

Lemma flat_post_video_invalid category title description url
    (videos : Catalog) :
  truthy title = false ∨ truthy url = false →
  outcome (post_video category title description url) videos =
    (res_status_json 400 (Error "Title and URL are required"), []).
Proof.
  intros H. unfold post_video, falsy.
  by destruct H as [-> | ->]; rewrite ?orb_true_r.
Qed.

Lemma flat_get_category_absent category (videos : Catalog) :
  videos !! category = None → object_inherits category = false →
  outcome (get_category category) videos =
    (res_status_json 404 (Error "Category not found"), []).
Proof. intros H Hi. unfold get_category. cbn. by rewrite prop_missing. Qed.

Lemma flat_get_category_present category (videos : Catalog) l :
  videos !! category = Some l →
  outcome (get_category category) videos = (res_json (Listing l), []).
Proof. intros H. unfold get_category. cbn. by rewrite (prop_own _ _ l). Qed.

Lemma flat_get_category_inherited category (videos : Catalog) :
  videos !! category = None → object_inherits category = true →
  outcome (get_category category) videos = (res_json (Foreign category), []).
Proof. intros H Hi. unfold get_category. cbn. by rewrite prop_inherited. Qed.

Lemma flat_post_category_exists name (videos : Catalog) l :
  name ≠ "" → videos !! name = Some l →
  outcome (post_category (Some name)) videos =
    (res_status_json 400 (Error "Category already exists"), []).
Proof.
  intros Hname H. unfold post_category, falsy. cbn.
  rewrite (proj2 (String.eqb_neq name "")) by done. cbn.
  by rewrite (prop_own _ _ l).
Qed.

Lemma flat_post_category_empty (videos : Catalog) :
  outcome (post_category (Some "")) videos =
    (res_status_json 400 (Error "Category name is required"), []).
Proof. done. Qed.

Lemma flat_splice_present category index (videos : Catalog) l :
  videos !! category = Some l →
  splice category index videos = <[category := delete index l]> videos.
Proof.
  intros Hc. unfold splice. apply map_eq. intros k.
  destruct (decide (k = category)) as [->|].
  - by rewrite lookup_alter_eq, lookup_insert_eq, Hc.
  - by rewrite lookup_alter_ne, lookup_insert_ne.
Qed.

Lemma flat_delete_video_valid category index (videos : Catalog) l v :
  videos !! category = Some l → l !! index = Some v →
  outcome (delete_video category (numeral index)) videos =
    (res_json (OkVideos (delete index l)),
     [<[category := delete index l]> videos]).
Proof.
  intros Hc Hi. unfold delete_video. cbn. rewrite (prop_own _ _ l) by done.
  rewrite (item_numeral _ _ v), start_numeral by done. cbn.
  rewrite (flat_splice_present _ _ _ l) by done.
  by rewrite lookup_total_insert_eq.
Qed.


(** Only the entry of the category addressed differs in a saved catalog. *)
Lemma flat_frame (r : route) (C : string) (videos videos' : Catalog)
    (k : string) :
  target r = Some C → videos' ∈ saved (handler r) videos → k ≠ C →
  videos' !! k = videos !! k.
Proof.
  intros Ht Hs Hk. unfold saved in Hs.
  destruct r; simplify_eq/=;
    unfold post_video, delete_video, post_category, delete_category,
      push, splice in Hs;
    cbn in Hs; repeat (case_match; cbn in Hs);
    try (by apply elem_of_nil in Hs);
    apply list_elem_of_singleton in Hs as ->;
    by rewrite ?lookup_alter_ne, ?lookup_insert_ne, ?lookup_delete_ne.
Qed.

(** A 4xx response is sent before any call of [writeVideos]. *)
Lemma flat_client_error (r : route) (videos : Catalog) :
  client_error (result (handler r) videos) = true →
  saved (handler r) videos = [].
Proof.
  unfold result, saved.
  destruct r; cbn;
    unfold post_video, delete_video, post_category, delete_category; cbn;
    repeat (case_match; cbn); done.
Qed.

End flat_facts.

(** ** The thumbnailed revisions *)

Section thumb_facts.
Import Thumb.
Context {runtime : Runtime}.

Lemma thumb_reads_first (r : route) : reads_first (handler r).
Proof.
  destruct r; cbn;
    unfold post_video_create, post_video_strict, post_video_part001,
      patch_video_thumbnail, delete_video,
      post_category, patch_category_thumbnail; cbn;
    repeat case_match; cbn; try done; intros videos; repeat case_match; done.
Qed.

(** *** What each handler does with the catalog it loaded *)

Lemma thumb_post_video_create_invalid category title description url thumbnail
    (videos : Catalog) :
  truthy title = false ∨ truthy url = false →
  outcome (post_video_create category title description url thumbnail) videos =
    (res_status_json 400 (Error "Title and URL are required"), []).
Proof.
  intros H. unfold post_video_create, falsy.
  by destruct H as [-> | ->]; rewrite ?orb_true_r.
Qed.

Lemma thumb_post_video_strict_invalid category title description url thumbnail
    (videos : Catalog) :
  truthy title = false ∨ truthy url = false →
  outcome (post_video_strict category title description url thumbnail) videos =
    (res_status_json 400 (Error "Title and URL are required"), []).
Proof.
  intros H. unfold post_video_strict, falsy.
  by destruct H as [-> | ->]; rewrite ?orb_true_r.
Qed.

Lemma thumb_push_present category video (videos : Catalog) c :
  videos !! category = Some c →
  push category video videos =
    <[category := Category.mk (Category.categoryThumbnail c)
                              (Category.videos c ++ [video])]> videos.
Proof.
  intros Hc. unfold push. apply map_eq. intros k.
  destruct (decide (k = category)) as [->|].
  - by rewrite lookup_alter_eq, lookup_insert_eq, Hc.
  - by rewrite lookup_alter_ne, lookup_insert_ne.
Qed.

Lemma thumb_splice_present category index (videos : Catalog) c :
  videos !! category = Some c →
  splice category index videos =
    <[category := Category.mk (Category.categoryThumbnail c)
                              (delete index (Category.videos c))]> videos.
Proof.
  intros Hc. unfold splice. apply map_eq. intros k.
  destruct (decide (k = category)) as [->|].
  - by rewrite lookup_alter_eq, lookup_insert_eq, Hc.
  - by rewrite lookup_alter_ne, lookup_insert_ne.
Qed.

(** The handler of part_001 appends whatever the body holds. *)
Lemma thumb_post_video_part001_present category title description url
    thumbnail (videos : Catalog) c :
  videos !! category = Some c →
  let l := Category.videos c ++ [new_video title description url thumbnail] in
  outcome (post_video_part001 category title description url thumbnail) videos =
    (res_json (OkVideos l),
     [<[category := Category.mk (Category.categoryThumbnail c) l]> videos]).
Proof.
  intros Hc l. unfold post_video_part001. cbn.
  rewrite (prop_own _ _ c) by done. cbn.
  rewrite (thumb_push_present _ _ _ c) by done.
  by rewrite lookup_total_insert_eq.
Qed.

Lemma thumb_get_category_absent category (videos : Catalog) :
  videos !! category = None → object_inherits category = false →
  outcome (get_category category) videos =
    (res_status_json 404 (Error "Category not found"), []).
Proof. intros H Hi. unfold get_category. cbn. by rewrite prop_missing. Qed.

Lemma thumb_get_category_present category (videos : Catalog) c :
  videos !! category = Some c →
  outcome (get_category category) videos =
    (res_json (Listing (Category.videos c)), []).
Proof. intros H. unfold get_category. cbn. by rewrite (prop_own _ _ c). Qed.

Lemma thumb_get_category_inherited category (videos : Catalog) :
  videos !! category = None → object_inherits category = true →
  outcome (get_category category) videos = (res_json NoBody, []).
Proof. intros H Hi. unfold get_category. cbn. by rewrite prop_inherited. Qed.

Lemma thumb_get_category_part001_absent category (videos : Catalog) :
  videos !! category = None → object_inherits category = false →
  outcome (get_category_part001 category) videos =
    (res_json (Whole (Category.mk None [])), []).
Proof.
  intros H Hi. unfold get_category_part001. cbn. by rewrite prop_missing.
Qed.

Lemma thumb_get_category_part001_present category (videos : Catalog) c :
  videos !! category = Some c →
  outcome (get_category_part001 category) videos = (res_json (Whole c), []).
Proof.
  intros H. unfold get_category_part001. cbn. by rewrite (prop_own _ _ c).
Qed.

Lemma thumb_post_category_exists name (videos : Catalog) c :
  name ≠ "" → videos !! name = Some c →
  outcome (post_category (Some name)) videos =
    (res_status_json 400 (Error "Category already exists"), []).
Proof.
  intros Hname H. unfold post_category, falsy. cbn.
  rewrite (proj2 (String.eqb_neq name "")) by done. cbn.
  by rewrite (prop_own _ _ c).
Qed.

Lemma thumb_post_category_empty (videos : Catalog) :
  outcome (post_category (Some "")) videos =
    (res_status_json 400 (Error "Category name is required"), []).
Proof. done. Qed.

Lemma thumb_delete_video_valid category index (videos : Catalog) c v :
  videos !! category = Some c → Category.videos c !! index = Some v →
  let l := delete index (Category.videos c) in
  outcome (delete_video category (numeral index)) videos =
    (res_json (OkVideos l),
     [<[category := Category.mk (Category.categoryThumbnail c) l]> videos]).
Proof.
  intros Hc Hi l. unfold delete_video. cbn. rewrite (prop_own _ _ c) by done.
  rewrite (item_numeral _ _ v), start_numeral by done. cbn.
  rewrite (thumb_splice_present _ _ _ c) by done.
  by rewrite lookup_total_insert_eq.
Qed.


Lemma thumb_patch_category_thumbnail_invalid name thumbnail
    (videos : Catalog) :
  truthy thumbnail = false →
  outcome (patch_category_thumbnail name thumbnail) videos =
    (res_status_json 400 (Error "Thumbnail URL is required"), []).
Proof. intros H. unfold patch_category_thumbnail, falsy. by rewrite H. Qed.

Lemma thumb_patch_category_thumbnail_unknown name thumbnail
    (videos : Catalog) :
  truthy thumbnail = true →
  videos !! name = None → object_inherits name = false →
  outcome (patch_category_thumbnail name thumbnail) videos =
    (res_status_json 404 (Error "Category not found"), []).
Proof.
  intros Ht H Hi. unfold patch_category_thumbnail, falsy. rewrite Ht. cbn.
  by rewrite prop_missing.
Qed.

Lemma thumb_patch_category_thumbnail_ok name thumbnail (videos : Catalog) c :
  truthy thumbnail = true → videos !! name = Some c →
  outcome (patch_category_thumbnail name thumbnail) videos =
    (res_json (OkThumbnail thumbnail),
     [<[name := Category.mk thumbnail (Category.videos c)]> videos]).
Proof.
  intros Ht H. unfold patch_category_thumbnail, falsy. rewrite Ht. cbn.
  rewrite (prop_own _ _ c) by done. cbn. do 3 f_equal.
  unfold set_category_thumbnail. apply map_eq. intros k.
  destruct (decide (k = name)) as [->|].
  - by rewrite lookup_alter_eq, lookup_insert_eq, H.
  - by rewrite lookup_alter_ne, lookup_insert_ne.
Qed.

(** [GET /api/categories] pairs every name with the thumbnail stored under
    it, and with nothing else. *)
Lemma thumb_get_categories_entry (videos : Catalog) name t :
  (∃ categories,
     outcome get_categories videos = (res_json (Categories categories), [])
     ∧ ((name, t) ∈ categories ↔
        ∃ c, videos !! name = Some c
             ∧ t = or_empty (Category.categoryThumbnail c))).
Proof.
  eexists. split; [reflexivity|].
  rewrite list_elem_of_fmap. split.
  - intros (k & [= -> ->] & [c Hc]%elem_of_Object_keys).
    exists c. split; [done|]. by rewrite (lookup_total_correct _ _ _ Hc).
  - intros (c & Hc & ->). exists name. split.
    + by rewrite (lookup_total_correct _ _ _ Hc).
    + apply elem_of_Object_keys. eauto.
Qed.

(** Only the entry of the category addressed differs in a saved catalog. *)
Lemma thumb_frame (r : route) (C : string) (videos videos' : Catalog)
    (k : string) :
  target r = Some C → videos' ∈ saved (handler r) videos → k ≠ C →
  videos' !! k = videos !! k.
Proof.
  intros Ht Hs Hk. unfold saved in Hs.
  destruct r; simplify_eq/=;
    unfold post_video_create, post_video_strict, post_video_part001,
      patch_video_thumbnail, delete_video, post_category,
      patch_category_thumbnail, delete_category,
      push, splice, set_video_thumbnail, set_category_thumbnail in Hs;
    cbn in Hs; repeat (case_match; cbn in Hs);
    try (by apply elem_of_nil in Hs);
    apply list_elem_of_singleton in Hs as ->;
    by rewrite ?lookup_alter_ne, ?lookup_insert_ne, ?lookup_delete_ne.
Qed.

(** A 4xx response is sent before any call of [writeVideos]. *)
Lemma thumb_client_error (r : route) (videos : Catalog) :
  client_error (result (handler r) videos) = true →
  saved (handler r) videos = [].
Proof.
  unfold result, saved.
  destruct r; cbn;
    unfold post_video_create, post_video_strict, post_video_part001,
      patch_video_thumbnail, delete_video, post_category,
      patch_category_thumbnail, delete_category; cbn;
    repeat (case_match; cbn); done.
Qed.

End thumb_facts.
(** * The specified behaviour, request by request *)

(** ** Creating a video *)

(** X1: the revisions that check the body refuse a request without title
    or url before they read the file: the response is a 400 and the disk is
    the one the request found. *)
Lemma post_video_validation {runtime : Runtime}
    {codecF : Store.JSON Flat.Catalog}
    {codecT : Store.JSON Thumb.Catalog}
    (category : string) (title description url thumbnail : field)
    (d : Store.Disk) :
  truthy title = false ∨ truthy url = false →
  let refused B (err : string → B) :=
    Store.Ok (res_status_json 400 (err "Title and URL are required"), d) in
  run (Flat.post_video category title description url) d
    = refused _ Flat.Error
  ∧ run (Thumb.post_video_create category title description url thumbnail) d
    = refused _ Thumb.Error
  ∧ run (Thumb.post_video_strict category title description url thumbnail) d
    = refused _ Thumb.Error.
Proof.
  intros H. unfold Flat.post_video, Thumb.post_video_create,
    Thumb.post_video_strict, falsy.
  by destruct H as [-> | ->]; rewrite ?orb_true_r.
Qed.

(** C1: the handler of part_001 does not check the body.  On a catalog
    whose category "music" has no video, a request with an empty body is
    answered 200 and the category saved to the file has one video, with
    neither title nor url. *)
Theorem post_video_part001_unchecked {runtime : Runtime} :
  let stored : Thumb.Catalog := {[ "music" := Category.mk (Some "") [] ]} in
  let d :=
    Store.mkDisk
      (Some (Store.JSON_stringify (JSON:=MiniJSON.thumb_json) stored))
      true true in
  let untitled := mkVideo None (Some "") None None in
  Store.load (codec:=MiniJSON.thumb_json) d !! "music"
    = Some (Category.mk (Some "") [])
  ∧ ∃ d',
      run (codec:=MiniJSON.thumb_json)
          (Thumb.handler (Thumb.PostVideoPart001 "music" None None None None))
          d
        = Store.Ok (res_json (Thumb.OkVideos [untitled]), d')
      ∧ Store.load (codec:=MiniJSON.thumb_json) d' !! "music"
        = Some (Category.mk (Some "") [untitled]).
Proof.
  split; [vm_compute; reflexivity|].
  eexists. split.
  - vm_compute. reflexivity.
  - vm_compute. reflexivity.
Qed.

(** ** Listing one category *)

(** C2, as stated, fails at part_001: a category that the catalog does not
    hold is answered 200, with a category object that has no video. *)
Lemma get_category_part001_not_404 :
  (∅ : Thumb.Catalog) !! "sports" = None
  ∧ object_inherits (Runtime:=node) "sports" = false
  ∧ result (Thumb.get_category_part001 (runtime:=node) "sports") ∅
    = res_json (Thumb.Whole (Category.mk None [])).
Proof. done. Qed.

(** C2 (amended): for a category name that is not one of the names every
    object inherits.  In the flat revision and in the thumbnailed revisions
    of server.js a category that is absent from the loaded catalog is
    answered 404; in part_001 it is answered 200 with [{ videos: [] }].  A
    category of the catalog is answered with its video sequence, in part_001
    with its whole category object, whatever its name.  Nothing is saved. *)
Theorem get_category_by_revision {runtime : Runtime} (category : string) :
  (∀ videos : Flat.Catalog,
     (videos !! category = None → object_inherits category = false →
      outcome (Flat.get_category category) videos =
        (res_status_json 404 (Flat.Error "Category not found"), []))
     ∧ (∀ l, videos !! category = Some l →
        outcome (Flat.get_category category) videos =
          (res_json (Flat.Listing l), [])))
  ∧ (∀ videos : Thumb.Catalog,
     (videos !! category = None → object_inherits category = false →
      outcome (Thumb.get_category category) videos =
        (res_status_json 404 (Thumb.Error "Category not found"), []))
     ∧ (∀ c, videos !! category = Some c →
        outcome (Thumb.get_category category) videos =
          (res_json (Thumb.Listing (Category.videos c)), [])))
  ∧ (∀ videos : Thumb.Catalog,
     (videos !! category = None → object_inherits category = false →
      outcome (Thumb.get_category_part001 category) videos =
        (res_json (Thumb.Whole (Category.mk None [])), []))
     ∧ (∀ c, videos !! category = Some c →
        outcome (Thumb.get_category_part001 category) videos =
          (res_json (Thumb.Whole c), []))).
Proof.
  split; [|split]; intros videos; split.
  - apply flat_get_category_absent.
  - intros l. apply flat_get_category_present.
  - apply thumb_get_category_absent.
  - intros c. apply thumb_get_category_present.
  - apply thumb_get_category_part001_absent.
  - intros c. apply thumb_get_category_part001_present.
Qed.

Lemma get_category_by_revision_witness :
  let video := mkVideo (Some "T") (Some "") (Some "U") None in
  let flat : Flat.Catalog := {[ "music" := [video] ]} in
  let thumb : Thumb.Catalog :=
    {[ "music" := Category.mk (Some "m.png") [video] ]} in
  outcome (Flat.get_category (runtime:=node) "music") flat
    = (res_json (Flat.Listing [video]), [])
  ∧ outcome (Flat.get_category (runtime:=node) "music") ∅
    = (res_status_json 404 (Flat.Error "Category not found"), [])
  ∧ outcome (Thumb.get_category (runtime:=node) "music") thumb
    = (res_json (Thumb.Listing [video]), [])
  ∧ outcome (Thumb.get_category (runtime:=node) "music") ∅
    = (res_status_json 404 (Thumb.Error "Category not found"), [])
  ∧ outcome (Thumb.get_category_part001 (runtime:=node) "music") thumb
    = (res_json (Thumb.Whole (Category.mk (Some "m.png") [video])), [])
  ∧ outcome (Thumb.get_category_part001 (runtime:=node) "music") ∅
    = (res_json (Thumb.Whole (Category.mk None [])), []).
Proof.
  destruct (get_category_by_revision (runtime:=node) "music")
    as (Hflat & Hthumb & Hpart).
  intros video flat thumb.
  split; [|split; [|split; [|split; [|split]]]].
  - apply (proj2 (Hflat flat) [video]). reflexivity.
  - apply (proj1 (Hflat ∅)); reflexivity.
  - apply (proj2 (Hthumb thumb) (Category.mk (Some "m.png") [video])).
    reflexivity.
  - apply (proj1 (Hthumb ∅)); reflexivity.
  - apply (proj2 (Hpart thumb) (Category.mk (Some "m.png") [video])).
    reflexivity.
  - apply (proj1 (Hpart ∅)); reflexivity.
Defined.

(** ** Creating a category *)

(** C3, as stated, fails for the empty name: [!name] holds of the empty
    string, so a request that names it is refused as one without a name,
    whether or not the catalog has such a category. *)
Lemma post_category_empty_name :
  let flat : Flat.Catalog := {[ "" := [] ]} in
  let thumb : Thumb.Catalog := {[ "" := Category.mk (Some "") [] ]} in
  flat !! "" = Some []
  ∧ outcome (Flat.post_category (runtime:=node) (Some "")) flat
    = (res_status_json 400 (Flat.Error "Category name is required"), [])
  ∧ thumb !! "" = Some (Category.mk (Some "") [])
  ∧ outcome (Thumb.post_category (runtime:=node) (Some "")) thumb
    = (res_status_json 400 (Thumb.Error "Category name is required"), []).
Proof. done. Qed.

(** C3 (amended): when the catalog on disk has a category with the
    non-empty name [N], a request to create [N] is answered 400 "Category
    already exists"; the file is not written, so the catalog still lists
    [N] once, with the entry it had. *)
Theorem post_category_conflict {runtime : Runtime} (N : string) :
  N ≠ "" →
  (∀ (codec : Store.JSON Flat.Catalog) (d : Store.Disk) l,
     Store.load d !! N = Some l →
     run (Flat.post_category (Some N)) d =
       Store.Ok
         (res_status_json 400 (Flat.Error "Category already exists"), d)
     ∧ saved (Flat.post_category (Some N)) (Store.load d) = []
     ∧ length (filter (N =.) (Object_keys (Store.load d))) = 1)
  ∧ (∀ (codec : Store.JSON Thumb.Catalog) (d : Store.Disk) c,
     Store.load d !! N = Some c →
     run (Thumb.post_category (Some N)) d =
       Store.Ok
         (res_status_json 400 (Thumb.Error "Category already exists"), d)
     ∧ saved (Thumb.post_category (Some N)) (Store.load d) = []
     ∧ length (filter (N =.) (Object_keys (Store.load d))) = 1).
Proof.
  intros HN. split; intros codec d x Hx.
  - pose proof (flat_post_category_exists N _ x HN Hx) as Ho.
    rewrite (run_reads_first (Flat.post_category (Some N)) d
               (flat_reads_first (Flat.PostCategory (Some N)))).
    unfold result, saved. rewrite Ho.
    split; [done|]. split; [done|]. apply Object_keys_once. eauto.
  - pose proof (thumb_post_category_exists N _ x HN Hx) as Ho.
    rewrite (run_reads_first (Thumb.post_category (Some N)) d
               (thumb_reads_first (Thumb.PostCategory (Some N)))).
    unfold result, saved. rewrite Ho.
    split; [done|]. split; [done|]. apply Object_keys_once. eauto.
Qed.

Lemma post_category_conflict_witness :
  let flat : Flat.Catalog := {[ "music" := [] ]} in
  let d :=
    Store.mkDisk (Some (Store.JSON_stringify (JSON:=MiniJSON.flat_json) flat))
      true true in
  run (codec:=MiniJSON.flat_json)
      (Flat.post_category (runtime:=node) (Some "music")) d =
    Store.Ok (res_status_json 400 (Flat.Error "Category already exists"), d)
  ∧ saved (Flat.post_category (runtime:=node) (Some "music"))
          (Store.load (codec:=MiniJSON.flat_json) d) = []
  ∧ length (filter ("music" =.)
              (Object_keys (Store.load (codec:=MiniJSON.flat_json) d))) = 1.
Proof.
  assert ("music" ≠ "") as Hname by done.
  apply (proj1 (post_category_conflict (runtime:=node) "music" Hname)
           MiniJSON.flat_json _ []).
  vm_compute. reflexivity.
Defined.

(** ** Deleting a video *)

(** C4: at an index below the length of the category's sequence, the
    sequence that is saved and returned is one shorter, agrees with the old
    one below the index and holds, from the index on, the element that was
    one position further. *)
Theorem delete_video_valid_index {runtime : Runtime}
    (category : string) (index : nat) :
  (∀ (videos : Flat.Catalog) l,
     videos !! category = Some l → index < length l →
     ∃ l',
       outcome (Flat.delete_video category (numeral index)) videos =
         (res_json (Flat.OkVideos l'), [<[category := l']> videos])
       ∧ S (length l') = length l
       ∧ (∀ j, j < index → l' !! j = l !! j)
       ∧ (∀ j, index ≤ j → l' !! j = l !! S j))
  ∧ (∀ (videos : Thumb.Catalog) c,
     videos !! category = Some c → index < length (Category.videos c) →
     ∃ l',
       outcome (Thumb.delete_video category (numeral index)) videos =
         (res_json (Thumb.OkVideos l'),
          [<[category := Category.mk (Category.categoryThumbnail c) l']>
             videos])
       ∧ S (length l') = length (Category.videos c)
       ∧ (∀ j, j < index → l' !! j = Category.videos c !! j)
       ∧ (∀ j, index ≤ j → l' !! j = Category.videos c !! S j)).
Proof.
  split.
  - intros videos l Hc Hlt.
    destruct (lookup_lt_is_Some_2 l index Hlt) as [v Hv].
    exists (delete index l). split; [by eapply flat_delete_video_valid|].
    split; [|split].
    + rewrite length_delete by eauto. lia.
    + intros j Hj. by apply list_lookup_delete_lt.
    + intros j Hj. by apply list_lookup_delete_ge.
  - intros videos c Hc Hlt.
    destruct (lookup_lt_is_Some_2 _ index Hlt) as [v Hv].
    exists (delete index (Category.videos c)).
    split; [by eapply thumb_delete_video_valid|].
    split; [|split].
    + rewrite length_delete by eauto. lia.
    + intros j Hj. by apply list_lookup_delete_lt.
    + intros j Hj. by apply list_lookup_delete_ge.
Qed.

Lemma delete_video_valid_index_witness :
  let v title := mkVideo (Some title) (Some "") (Some "U") None in
  let videos : Thumb.Catalog :=
    {[ "music" := Category.mk (Some "m.png") [v "a"; v "b"; v "c"] ]} in
  ∃ l',
    outcome (Thumb.delete_video (runtime:=node) "music" "1") videos =
      (res_json (Thumb.OkVideos l'),
       [<["music" := Category.mk (Some "m.png") l']> videos])
    ∧ S (length l') = 3
    ∧ (∀ j, j < 1 → l' !! j = [v "a"; v "b"; v "c"] !! j)
    ∧ (∀ j, 1 ≤ j → l' !! j = [v "a"; v "b"; v "c"] !! S j).
Proof.
  intros v videos.
  apply (proj2 (delete_video_valid_index (runtime:=node) "music" 1) videos
           (Category.mk (Some "m.png") [v "a"; v "b"; v "c"])).
  - reflexivity.
  - simpl. lia.
Defined.

(** ** Deleting a category *)




(** ** Setting the thumbnail of a category *)

(** C8, as stated, fails when the write fails: the request is answered with
    the new thumbnail, and the file, which the next request reads, keeps the
    old one. *)
Lemma patch_category_thumbnail_write_fails :
  let videos : Thumb.Catalog := {[ "music" := Category.mk (Some "") [] ]} in
  let d :=
    Store.mkDisk
      (Some (Store.JSON_stringify (JSON:=MiniJSON.thumb_json) videos))
      true false in
  let serve r := run (codec:=MiniJSON.thumb_json)
                   (Thumb.handler (runtime:=node) r) d in
  serve (Thumb.PatchCategoryThumbnail "music" (Some "m.png"))
    = Store.Ok (res_json (Thumb.OkThumbnail (Some "m.png")), d)
  ∧ serve Thumb.GetCategories
    = Store.Ok (res_json (Thumb.Categories [("music", "")]), d).
Proof. split; vm_compute; reflexivity. Qed.

(** C8 (amended): for a category of the catalog and a non-empty thumbnail,
    the catalog saved has the thumbnail in the category's entry and the
    thumbnail is returned; when the file can be written and read and
    [JSON.parse] reads the saved catalog back, the next
    [GET /api/categories] pairs the name with that thumbnail and with none
    other.  A thumbnail that is missing or empty is answered 400; a name
    that the catalog does not hold, and that is not one of the names every
    object inherits, is answered 404.  Neither writes the file. *)
Theorem patch_category_thumbnail_spec {runtime : Runtime}
    {codec : Store.JSON Thumb.Catalog} (N : string) (d : Store.Disk) :
  (∀ T c,
     T ≠ "" → Store.load d !! N = Some c →
     let videos' :=
       <[N := Category.mk (Some T) (Category.videos c)]> (Store.load d) in
     ∃ d',
       run (Thumb.patch_category_thumbnail N (Some T)) d =
         Store.Ok (res_json (Thumb.OkThumbnail (Some T)), d')
       ∧ saved (Thumb.patch_category_thumbnail N (Some T)) (Store.load d)
         = [videos']
       ∧ (Store.writable d = true → Store.readable d = true →
          Store.JSON_parse (Store.JSON_stringify videos') = Some videos' →
          ∃ categories,
            run Thumb.get_categories d' =
              Store.Ok (res_json (Thumb.Categories categories), d')
            ∧ (N, T) ∈ categories
            ∧ (∀ t, (N, t) ∈ categories → t = T)))
  ∧ (∀ thumbnail,
     thumbnail = None ∨ thumbnail = Some "" →
     run (Thumb.patch_category_thumbnail N thumbnail) d =
       Store.Ok
         (res_status_json 400 (Thumb.Error "Thumbnail URL is required"), d)
     ∧ saved (Thumb.patch_category_thumbnail N thumbnail) (Store.load d) = [])
  ∧ (∀ T,
     T ≠ "" → Store.load d !! N = None → object_inherits N = false →
     run (Thumb.patch_category_thumbnail N (Some T)) d =
       Store.Ok (res_status_json 404 (Thumb.Error "Category not found"), d)
     ∧ saved (Thumb.patch_category_thumbnail N (Some T)) (Store.load d) = []).
Proof.
  assert (∀ T, T ≠ "" → truthy (Some T) = true ∧ or_empty (Some T) = T)
    as Htruthy.
  { intros T HT. unfold or_empty, truthy.
    by rewrite (proj2 (String.eqb_neq T "")). }
  split; [|split].
  - intros T c HT Hc videos'. destruct (Htruthy T HT) as [Ht Hor].
    pose proof (thumb_patch_category_thumbnail_ok N (Some T) _ c Ht Hc) as Ho.
    fold videos' in Ho.
    exists (Store.save videos' d). split; [|split].
    + rewrite (run_saved_once (Thumb.patch_category_thumbnail N (Some T)) d
                 videos'
                 (thumb_reads_first (Thumb.PatchCategoryThumbnail N (Some T))));
        unfold result, saved; by rewrite Ho.
    + unfold saved. by rewrite Ho.
    + intros Hw Hr Hcodec.
      assert (Store.load (Store.save videos' d) = videos') as Hload
        by by apply load_save.
      destruct (thumb_get_categories_entry videos' N T)
        as (categories & Hget & Hin).
      exists categories. split; [|split].
      * rewrite (run_reads_first Thumb.get_categories _
                   (thumb_reads_first Thumb.GetCategories)).
        unfold result, saved. cbn [Thumb.handler]. by rewrite Hload, Hget.
      * apply Hin. eexists. split; [apply lookup_insert_eq|].
        simpl. by rewrite Hor.
      * intros t Hin'.
        destruct (thumb_get_categories_entry videos' N t)
          as (categories' & Hget' & Hspec).
        rewrite Hget in Hget'. simplify_eq.
        apply Hspec in Hin' as (c' & Hc' & ->).
        rewrite lookup_insert_eq in Hc'. by simplify_eq.
  - intros thumbnail Hfalsy.
    assert (truthy thumbnail = false) as Ht by by destruct Hfalsy as [-> | ->].
    pose proof (thumb_patch_category_thumbnail_invalid N thumbnail
                  (Store.load d) Ht) as Ho.
    rewrite (run_reads_first (Thumb.patch_category_thumbnail N thumbnail) d
               (thumb_reads_first (Thumb.PatchCategoryThumbnail N thumbnail))).
    unfold result, saved. cbn [Thumb.handler]. by rewrite Ho.
  - intros T HT Hc Hi.
    pose proof (thumb_patch_category_thumbnail_unknown N (Some T)
                  (Store.load d) (proj1 (Htruthy T HT)) Hc Hi) as Ho.
    rewrite (run_reads_first (Thumb.patch_category_thumbnail N (Some T)) d
               (thumb_reads_first (Thumb.PatchCategoryThumbnail N (Some T)))).
    unfold result, saved. cbn [Thumb.handler]. by rewrite Ho.
Qed.

Lemma patch_category_thumbnail_spec_witness :
  let videos : Thumb.Catalog :=
    {[ "music" := Category.mk (Some "") []; "news" := Category.mk None [] ]} in
  let d :=
    Store.mkDisk
      (Some (Store.JSON_stringify (JSON:=MiniJSON.thumb_json) videos))
      true true in
  let serve r d := run (codec:=MiniJSON.thumb_json)
                     (Thumb.handler (runtime:=node) r) d in
  (∃ d' categories,
     serve (Thumb.PatchCategoryThumbnail "music" (Some "m.png")) d =
       Store.Ok (res_json (Thumb.OkThumbnail (Some "m.png")), d')
     ∧ serve Thumb.GetCategories d' =
         Store.Ok (res_json (Thumb.Categories categories), d')
     ∧ ("music", "m.png") ∈ categories
     ∧ (∀ t, ("music", t) ∈ categories → t = "m.png"))
  ∧ serve (Thumb.PatchCategoryThumbnail "music" (Some "")) d =
      Store.Ok
        (res_status_json 400 (Thumb.Error "Thumbnail URL is required"), d)
  ∧ serve (Thumb.PatchCategoryThumbnail "sports" (Some "s.png")) d =
      Store.Ok (res_status_json 404 (Thumb.Error "Category not found"), d).
Proof.
  intros videos d serve.
  destruct (patch_category_thumbnail_spec (runtime:=node)
              (codec:=MiniJSON.thumb_json) "music" d) as (Hok & Hbad & _).
  destruct (patch_category_thumbnail_spec (runtime:=node)
              (codec:=MiniJSON.thumb_json) "sports" d) as (_ & _ & Hnone).
  split; [|split].
  - destruct (Hok "m.png" (Category.mk (Some "") []))
      as (d' & Hrun & _ & Hnext); [done | vm_compute; reflexivity |].
    destruct Hnext as (categories & Hget & Hin & Honly);
      [reflexivity | reflexivity | apply thumb_parse_stringify |].
    exists d', categories. split; [exact Hrun|]. split; [exact Hget|].
    split; [exact Hin | exact Honly].
  - apply Hbad. by right.
  - apply Hnone; [done | vm_compute; reflexivity | reflexivity].
Defined.

(** ** What a mutation leaves alone *)

(** C9: in a catalog that a handler saves, every entry but the one of the
    category the request is addressed at is the entry of the catalog the
    handler loaded. *)
Theorem mutation_frame {runtime : Runtime} :
  (∀ (r : Flat.route) (C : string) (videos videos' : Flat.Catalog) k,
     Flat.target r = Some C →
     videos' ∈ saved (Flat.handler r) videos →
     k ≠ C → videos' !! k = videos !! k)
  ∧ (∀ (r : Thumb.route) (C : string) (videos videos' : Thumb.Catalog) k,
     Thumb.target r = Some C →
     videos' ∈ saved (Thumb.handler r) videos →
     k ≠ C → videos' !! k = videos !! k).
Proof. split; [apply flat_frame | apply thumb_frame]. Qed.

Lemma mutation_frame_witness :
  let video := mkVideo (Some "T") (Some "") (Some "U") (Some "t.png") in
  let news := Category.mk None [video] in
  let videos : Thumb.Catalog :=
    {[ "music" := Category.mk (Some "m.png") []; "news" := news ]} in
  let videos' := <["music" := Category.mk (Some "m.png") [video]]> videos in
  let r :=
    Thumb.PostVideoStrict "music" (Some "T") None (Some "U") (Some "t.png") in
  saved (Thumb.handler (runtime:=node) r) videos = [videos']
  ∧ videos' !! "news" = videos !! "news".
Proof.
  intros video news videos videos' r.
  assert (saved (Thumb.handler (runtime:=node) r) videos = [videos'])
    as Hsaved by (vm_compute; reflexivity).
  split; [done|].
  apply (proj2 (mutation_frame (runtime:=node)) r "music").
  - reflexivity.
  - rewrite Hsaved. by apply list_elem_of_singleton.
  - done.
Defined.

(** ** Requests that are refused *)

(** C10: every request ends, with a response or with what the handler
    throws, and when it ends with a 4xx the handler has not called
    [writeVideos]: the disk is the one the request found. *)
Theorem client_error_no_save {runtime : Runtime} :
  (∀ (codec : Store.JSON Flat.Catalog) (r : Flat.route) (d : Store.Disk),
     ∃ resp d',
       run (Flat.handler r) d = Store.Ok (resp, d')
       ∧ (client_error resp = true →
          saved (Flat.handler r) (Store.load d) = [] ∧ d' = d))
  ∧ (∀ (codec : Store.JSON Thumb.Catalog) (r : Thumb.route) (d : Store.Disk),
     ∃ resp d',
       run (Thumb.handler r) d = Store.Ok (resp, d')
       ∧ (client_error resp = true →
          saved (Thumb.handler r) (Store.load d) = [] ∧ d' = d)).
Proof.
  split; intros codec r d; eexists _, _.
  - split; [by apply run_reads_first, flat_reads_first|].
    intros Hsaved%flat_client_error. by rewrite Hsaved.
  - split; [by apply run_reads_first, thumb_reads_first|].
    intros Hsaved%thumb_client_error. by rewrite Hsaved.
Qed.

Lemma client_error_no_save_witness :
  let videos : Thumb.Catalog := {[ "music" := Category.mk (Some "") [] ]} in
  let d :=
    Store.mkDisk
      (Some (Store.JSON_stringify (JSON:=MiniJSON.thumb_json) videos))
      true true in
  let r := Thumb.DeleteVideo "music" "0" in
  ∃ resp d',
    run (codec:=MiniJSON.thumb_json) (Thumb.handler (runtime:=node) r) d
      = Store.Ok (resp, d')
    ∧ resp = res_status_json 404 (Thumb.Error "Video not found")
    ∧ saved (Thumb.handler (runtime:=node) r)
        (Store.load (codec:=MiniJSON.thumb_json) d) = []
    ∧ d' = d.
Proof.
  intros videos d r.
  destruct (proj2 (client_error_no_save (runtime:=node)) MiniJSON.thumb_json r d)
    as (resp & d' & Hrun & Hrefused).
  exists resp, d'. split; [done|].
  assert (resp = res_status_json 404 (Thumb.Error "Video not found")) as ->.
  { vm_compute in Hrun. by injection Hrun as <- _. }
  split; [done|]. apply Hrefused. reflexivity.
Defined.

(** ** Saving, then loading *)




(** ** A session

    On a disk without a file, with the handlers of the third listing of
    server.js: a category is created, a video is added to it, the category
    is listed, and the video is deleted. *)
Example session :
  let d0 := Store.mkDisk None true true in
  let video := mkVideo (Some "T") (Some "") (Some "U") None in
  let serve r d :=
    run (codec:=MiniJSON.thumb_json) (Thumb.handler (runtime:=node) r) d in
  ∃ d1 d2 d3,
    serve (Thumb.PostCategory (Some "music")) d0
      = Store.Ok (res_json (Thumb.OkCategories ["music"]), d1)
    ∧ serve (Thumb.PostVideoStrict "music" (Some "T") None (Some "U") None) d1
      = Store.Ok (res_json (Thumb.OkVideos [video]), d2)
    ∧ serve (Thumb.GetCategory "music") d2
      = Store.Ok (res_json (Thumb.Listing [video]), d2)
    ∧ serve (Thumb.GetCategories) d2
      = Store.Ok (res_json (Thumb.Categories [("music", "")]), d2)
    ∧ serve (Thumb.DeleteVideo "music" "0") d2
      = Store.Ok (res_json (Thumb.OkVideos []), d3)
    ∧ serve (Thumb.DeleteVideo "music" "0") d3
      = Store.Ok (res_status_json 404 (Thumb.Error "Video not found"), d3)
    ∧ d3 = d1.
Proof.
  eexists _, _, _.
  split; [vm_compute; reflexivity|]. split; [vm_compute; reflexivity|].
  split; [vm_compute; reflexivity|]. split; [vm_compute; reflexivity|].
  split; [vm_compute; reflexivity|]. split; vm_compute; reflexivity.
Qed.
(** * Further properties of the handlers *)

(** ** Helpers *)

Lemma truthy_Some (s : string) : s ≠ "" → truthy (Some s) = true.
Proof. intros Hs. unfold truthy. by rewrite (proj2 (String.eqb_neq s "")). Qed.

Lemma truthy_inv (x : field) :
  truthy x = true → ∃ s, x = Some s ∧ s ≠ "".
Proof.
  destruct x as [s|]; [|done]. unfold truthy.
  intros Hs%negb_true_iff%String.eqb_neq. eauto.
Qed.

Lemma alter_present {Cat} (f : Cat → Cat) (videos : gmap string Cat) k c :
  videos !! k = Some c → alter f k videos = <[k := f c]> videos.
Proof.
  intros Hc. apply map_eq. intros j. destruct (decide (j = k)) as [->|].
  - by rewrite lookup_alter_eq, lookup_insert_eq, Hc.
  - by rewrite lookup_alter_ne, lookup_insert_ne.
Qed.

Lemma category_eta (c : Category.t) :
  Category.mk (Category.categoryThumbnail c) (Category.videos c) = c.
Proof. by destruct c. Qed.

(** ** Creating a video *)

Lemma post_video_validation_witness :
  let d := Store.mkDisk (Some "{}") true true in
  run (codec:=MiniJSON.flat_json)
      (Flat.post_video (runtime:=node) "music" None None (Some "U")) d
    = Store.Ok
        (res_status_json 400 (Flat.Error "Title and URL are required"), d)
  ∧ run (codec:=MiniJSON.thumb_json)
      (Thumb.post_video_create (runtime:=node) "music" None None (Some "U")
         None) d
    = Store.Ok
        (res_status_json 400 (Thumb.Error "Title and URL are required"), d)
  ∧ run (codec:=MiniJSON.thumb_json)
      (Thumb.post_video_strict (runtime:=node) "music" None None (Some "U")
         None) d
    = Store.Ok
        (res_status_json 400 (Thumb.Error "Title and URL are required"), d).
Proof.
  intros d.
  apply (post_video_validation (runtime:=node) (codecF:=MiniJSON.flat_json)
           (codecT:=MiniJSON.thumb_json) "music" None None (Some "U") None d).
  left. reflexivity.
Defined.

(** X2: on a category of the catalog whose sequence is [l], a create-video
    request with a title and a url saves and returns [l] followed by the new
    video; the video has the title and the url of the body, the description
    or the empty string, and a thumbnail only when the body has a non-empty
    one (never in the flat revisions).  The handler of part_001 does so for
    every body. *)
Theorem post_video_appends {runtime : Runtime} (category : string)
    (title description url thumbnail : field) :
  let v := mkVideo title (Some (or_empty description)) url
             (if truthy thumbnail then thumbnail else None) in
  (∀ (videos : Flat.Catalog) l,
     truthy title = true → truthy url = true →
     videos !! category = Some l →
     outcome (Flat.post_video category title description url) videos =
       (res_json
          (Flat.OkVideos
             (l ++ [mkVideo title (Some (or_empty description)) url None])),
        [<[category :=
             l ++ [mkVideo title (Some (or_empty description)) url None]]>
           videos]))
  ∧ (∀ (videos : Thumb.Catalog) c,
     videos !! category = Some c →
     let saved_to :=
       [<[category := Category.mk (Category.categoryThumbnail c)
                        (Category.videos c ++ [v])]> videos] in
     let answer := res_json (Thumb.OkVideos (Category.videos c ++ [v])) in
     (truthy title = true → truthy url = true →
      outcome (Thumb.post_video_create category title description url
                 thumbnail) videos = (answer, saved_to)
      ∧ outcome (Thumb.post_video_strict category title description url
                   thumbnail) videos = (answer, saved_to))
     ∧ outcome (Thumb.post_video_part001 category title description url
                  thumbnail) videos = (answer, saved_to)).
Proof.
  intros v. split.
  - intros videos l Ht Hu Hc. unfold Flat.post_video, falsy.
    rewrite Ht, Hu. cbn. rewrite !(prop_own videos _ l) by done. cbn.
    unfold Flat.push. rewrite (alter_present _ _ _ l) by done.
    by rewrite lookup_total_insert_eq.
  - intros videos c Hc saved_to answer.
    assert (Thumb.new_video title description url thumbnail = v) as Hv.
    { unfold Thumb.new_video, v. by destruct (truthy thumbnail). }
    assert (outcome (Thumb.post_video_part001 category title description url
                       thumbnail) videos = (answer, saved_to)) as Hpart.
    { rewrite (thumb_post_video_part001_present _ _ _ _ _ _ c) by done.
      by rewrite Hv. }
    split; [|done]. intros Ht Hu.
    unfold Thumb.post_video_create, Thumb.post_video_strict, falsy.
    rewrite Ht, Hu. cbn. rewrite !(prop_own videos _ c) by done. cbn.
    rewrite Hv.
    rewrite (thumb_push_present _ _ _ c) by done.
    by rewrite lookup_total_insert_eq.
Qed.

Lemma post_video_appends_witness :
  let old := mkVideo (Some "A") (Some "") (Some "a.mp4") None in
  let new := mkVideo (Some "T") (Some "") (Some "U") (Some "t.png") in
  let videos : Thumb.Catalog :=
    {[ "music" := Category.mk (Some "m.png") [old] ]} in
  outcome (Thumb.post_video_strict (runtime:=node) "music" (Some "T") None
             (Some "U") (Some "t.png")) videos
  = (res_json (Thumb.OkVideos [old; new]),
     [<["music" := Category.mk (Some "m.png") [old; new]]> videos]).
Proof.
  intros old new videos.
  destruct (post_video_appends (runtime:=node) "music" (Some "T") None
              (Some "U") (Some "t.png")) as [_ Hthumb].
  destruct (Hthumb videos (Category.mk (Some "m.png") [old])) as [Hchecked _];
    [reflexivity|].
  apply Hchecked; reflexivity.
Defined.

(** X3: a create-video request with a title and a url for a category that
    the catalog does not hold, under a name that is not one of the names
    every object inherits: the flat revisions and the second listing of
    server.js create the category with the video as its only one; the third
    listing and part_001 answer 404 and save nothing. *)
Theorem post_video_unknown_category {runtime : Runtime} (category : string)
    (title description url thumbnail : field) :
  truthy title = true → truthy url = true →
  object_inherits category = false →
  (∀ videos : Flat.Catalog,
     videos !! category = None →
     let v := mkVideo title (Some (or_empty description)) url None in
     outcome (Flat.post_video category title description url) videos =
       (res_json (Flat.OkVideos [v]), [<[category := [v]]> videos]))
  ∧ (∀ videos : Thumb.Catalog,
     videos !! category = None →
     let v := Thumb.new_video title description url thumbnail in
     let refused :=
       (res_status_json 404 (Thumb.Error "Category does not exist"), []) in
     outcome (Thumb.post_video_create category title description url
                thumbnail) videos =
       (res_json (Thumb.OkVideos [v]),
        [<[category := Category.mk (Some "") [v]]> videos])
     ∧ outcome (Thumb.post_video_strict category title description url
                  thumbnail) videos = refused
     ∧ outcome (Thumb.post_video_part001 category title description url
                  thumbnail) videos = refused).
Proof.
  intros Ht Hu Hi. split.
  - intros videos Hc v. unfold Flat.post_video, falsy.
    rewrite Ht, Hu. cbn. rewrite (prop_missing videos) by done.
    rewrite prop_insert. cbn. unfold Flat.push.
    rewrite (alter_present _ _ _ []) by apply lookup_insert_eq.
    by rewrite insert_insert_eq, lookup_total_insert_eq.
  - intros videos Hc v refused.
    unfold Thumb.post_video_create, Thumb.post_video_strict,
      Thumb.post_video_part001, falsy.
    rewrite Ht, Hu. cbn. rewrite (prop_missing videos) by done.
    rewrite prop_insert. cbn. split; [|done].
    rewrite (thumb_push_present _ _ _ (Category.mk (Some "") []))
      by apply lookup_insert_eq.
    by rewrite insert_insert_eq, lookup_total_insert_eq.
Qed.

Lemma post_video_unknown_category_witness :
  let v := mkVideo (Some "T") (Some "d") (Some "U") None in
  outcome (Flat.post_video (runtime:=node) "music" (Some "T") (Some "d")
             (Some "U")) ∅ =
    (res_json (Flat.OkVideos [v]), [{[ "music" := [v] ]}])
  ∧ outcome (Thumb.post_video_strict (runtime:=node) "music" (Some "T")
               (Some "d") (Some "U") None) ∅ =
      (res_status_json 404 (Thumb.Error "Category does not exist"), []).
Proof.
  intros v.
  destruct (post_video_unknown_category (runtime:=node) "music" (Some "T")
              (Some "d") (Some "U") None eq_refl eq_refl eq_refl)
    as [Hflat Hthumb].
  split.
  - apply (Hflat ∅). reflexivity.
  - apply (Hthumb ∅). reflexivity.
Defined.

(** ** Creating a category *)

(** X4: a create-category request with a non-empty name that the catalog
    does not hold, and that is not one of the names every object inherits,
    saves the catalog with one more entry, an empty category under that
    name, and returns its names: the new name, once, and the names the
    catalog had. *)
Theorem post_category_creates {runtime : Runtime} (name : string) :
  name ≠ "" → object_inherits name = false →
  (∀ videos : Flat.Catalog,
     videos !! name = None →
     ∃ names,
       outcome (Flat.post_category (Some name)) videos =
         (res_json (Flat.OkCategories names), [<[name := []]> videos])
       ∧ length (filter (name =.) names) = 1
       ∧ ∀ k, k ∈ names ↔ k = name ∨ k ∈ Object_keys videos)
  ∧ (∀ videos : Thumb.Catalog,
     videos !! name = None →
     ∃ names,
       outcome (Thumb.post_category (Some name)) videos =
         (res_json (Thumb.OkCategories names),
          [<[name := Category.mk (Some "") []]> videos])
       ∧ length (filter (name =.) names) = 1
       ∧ ∀ k, k ∈ names ↔ k = name ∨ k ∈ Object_keys videos).
Proof.
  intros Hname Hi. split; intros videos Habsent; eexists; split.
  - unfold Flat.post_category, falsy. rewrite truthy_Some by done. cbn.
    rewrite prop_missing by done. reflexivity.
  - split.
    + apply Object_keys_once. rewrite lookup_insert_eq. eauto.
    + intros k. rewrite !elem_of_Object_keys.
      destruct (decide (k = name)) as [->|].
      * rewrite lookup_insert_eq. split; [by left | eauto].
      * rewrite lookup_insert_ne by done. split; [by right | by intros [?|?]].
  - unfold Thumb.post_category, falsy. rewrite truthy_Some by done. cbn.
    rewrite prop_missing by done. reflexivity.
  - split.
    + apply Object_keys_once. rewrite lookup_insert_eq. eauto.
    + intros k. rewrite !elem_of_Object_keys.
      destruct (decide (k = name)) as [->|].
      * rewrite lookup_insert_eq. split; [by left | eauto].
      * rewrite lookup_insert_ne by done. split; [by right | by intros [?|?]].
Qed.

Lemma post_category_creates_witness :
  let videos : Flat.Catalog := {[ "news" := [] ]} in
  ∃ names,
    outcome (Flat.post_category (runtime:=node) (Some "music")) videos =
      (res_json (Flat.OkCategories names), [<["music" := []]> videos])
    ∧ length (filter ("music" =.) names) = 1
    ∧ ∀ k, k ∈ names ↔ k = "music" ∨ k ∈ Object_keys videos.
Proof.
  intros videos.
  assert ("music" ≠ "") as Hname by done.
  apply (proj1 (post_category_creates (runtime:=node) "music" Hname eq_refl)
           videos).
  reflexivity.
Defined.

(** ** Setting the thumbnail of a video *)

(** X5: in the second listing of server.js, with the numeral of an index
    as the index segment of the route: for a video of a category and a
    non-empty thumbnail, the sequence saved and returned has the same
    length, holds at the index the video with that thumbnail and its title,
    description and url, and every other video as it was.  An empty or
    missing thumbnail is answered 400, whatever the route; otherwise a
    category that the catalog does not hold, under a name that is not one of
    the names every object inherits, and an index past the end are answered
    404.  Neither saves. *)
Theorem patch_video_thumbnail_spec {runtime : Runtime}
    (category : string) (index : nat) (videos : Thumb.Catalog) :
  (∀ T c v,
     T ≠ "" → videos !! category = Some c →
     Category.videos c !! index = Some v →
     ∃ l',
       outcome (Thumb.patch_video_thumbnail category (numeral index) (Some T))
         videos =
         (res_json (Thumb.OkVideos l'),
          [<[category := Category.mk (Category.categoryThumbnail c) l']>
             videos])
       ∧ length l' = length (Category.videos c)
       ∧ l' !! index =
           Some (mkVideo (title v) (description v) (url v) (Some T))
       ∧ (∀ j, j ≠ index → l' !! j = Category.videos c !! j))
  ∧ (∀ segment thumbnail,
     thumbnail = None ∨ thumbnail = Some "" →
     outcome (Thumb.patch_video_thumbnail category segment thumbnail) videos =
       (res_status_json 400 (Thumb.Error "Thumbnail URL is required"), []))
  ∧ (∀ T,
     T ≠ "" →
     (videos !! category = None ∧ object_inherits category = false)
     ∨ (∃ c, videos !! category = Some c
           ∧ length (Category.videos c) ≤ index) →
     outcome (Thumb.patch_video_thumbnail category (numeral index) (Some T))
       videos =
       (res_status_json 404 (Thumb.Error "Video not found"), [])).
Proof.
  split; [|split].
  - intros T c v HT Hc Hv.
    exists (alter (Thumb.set_thumbnail (Some T)) index (Category.videos c)).
    split; [|split; [|split]].
    + unfold Thumb.patch_video_thumbnail, falsy.
      rewrite truthy_Some by done. cbn. rewrite !(prop_own videos _ c) by done.
      rewrite (item_numeral _ _ v), start_numeral by done. cbn.
      unfold Thumb.set_video_thumbnail.
      rewrite (alter_present _ _ _ c) by done.
      by rewrite lookup_total_insert_eq.
    + apply length_alter.
    + by rewrite list_lookup_alter_eq, Hv.
    + intros j Hj. by apply list_lookup_alter_ne.
  - intros segment thumbnail Hfalsy.
    unfold Thumb.patch_video_thumbnail, falsy.
    by destruct Hfalsy as [-> | ->].
  - intros T HT Hmissing. unfold Thumb.patch_video_thumbnail, falsy.
    rewrite truthy_Some by done. cbn.
    destruct Hmissing as [[Hc Hi] | (c & Hc & Hlen)].
    + by rewrite prop_missing.
    + rewrite !(prop_own videos _ c) by done.
      by rewrite item_numeral_out by by apply lookup_ge_None_2.
Qed.

Lemma patch_video_thumbnail_spec_witness :
  let a := mkVideo (Some "A") (Some "") (Some "a.mp4") None in
  let b := mkVideo (Some "B") (Some "d") (Some "b.mp4") (Some "old.png") in
  let videos : Thumb.Catalog := {[ "music" := Category.mk None [a; b] ]} in
  (∃ l',
     outcome (Thumb.patch_video_thumbnail (runtime:=node) "music" "1"
                (Some "new.png")) videos =
       (res_json (Thumb.OkVideos l'),
        [<["music" := Category.mk None l']> videos])
     ∧ length l' = 2
     ∧ l' !! 1 = Some (mkVideo (Some "B") (Some "d") (Some "b.mp4")
                         (Some "new.png"))
     ∧ (∀ j, j ≠ 1 → l' !! j = [a; b] !! j))
  ∧ outcome (Thumb.patch_video_thumbnail (runtime:=node) "music" "1"
               None) videos =
      (res_status_json 400 (Thumb.Error "Thumbnail URL is required"), [])
  ∧ outcome (Thumb.patch_video_thumbnail (runtime:=node) "music" "2"
               (Some "new.png")) videos =
      (res_status_json 404 (Thumb.Error "Video not found"), [])
  ∧ outcome (Thumb.patch_video_thumbnail (runtime:=node) "news" "0"
               (Some "new.png")) videos =
      (res_status_json 404 (Thumb.Error "Video not found"), []).
Proof.
  intros a b videos.
  destruct (patch_video_thumbnail_spec (runtime:=node) "music" 1 videos)
    as (Hok & Hbad & _).
  destruct (patch_video_thumbnail_spec (runtime:=node) "music" 2 videos)
    as (_ & _ & Hpast).
  destruct (patch_video_thumbnail_spec (runtime:=node) "news" 0 videos)
    as (_ & _ & Hnone).
  split; [|split; [|split]].
  - apply (Hok "new.png" (Category.mk None [a; b]) b); [done|reflexivity..].
  - apply Hbad. by left.
  - apply Hpast; [done|]. right. exists (Category.mk None [a; b]).
    split; [reflexivity | simpl; lia].
  - apply Hnone; [done|]. left. split; reflexivity.
Defined.

(** ** Deleting what is not there *)

(** X6: with the numeral of an index as the index segment of the route,
    deleting a video at an index that is not below the length of the
    category's sequence is answered 404 "Video not found".  For a name that
    the catalog does not hold and that is not one of the names every object
    inherits, deleting a video of that category is answered 404 "Video not
    found", whatever the index segment, and deleting the category 404
    "Category not found".  Nothing is saved. *)
Theorem delete_missing {runtime : Runtime} (category : string) (index : nat) :
  (∀ videos : Flat.Catalog,
     ((∃ l, videos !! category = Some l ∧ length l ≤ index) →
      outcome (Flat.delete_video category (numeral index)) videos =
        (res_status_json 404 (Flat.Error "Video not found"), []))
     ∧ (videos !! category = None → object_inherits category = false →
        (∀ segment,
           outcome (Flat.delete_video category segment) videos =
             (res_status_json 404 (Flat.Error "Video not found"), []))
        ∧ outcome (Flat.delete_category category) videos =
            (res_status_json 404 (Flat.Error "Category not found"), [])))
  ∧ (∀ videos : Thumb.Catalog,
     ((∃ c, videos !! category = Some c
            ∧ length (Category.videos c) ≤ index) →
      outcome (Thumb.delete_video category (numeral index)) videos =
        (res_status_json 404 (Thumb.Error "Video not found"), []))
     ∧ (videos !! category = None → object_inherits category = false →
        (∀ segment,
           outcome (Thumb.delete_video category segment) videos =
             (res_status_json 404 (Thumb.Error "Video not found"), []))
        ∧ outcome (Thumb.delete_category category) videos =
            (res_status_json 404 (Thumb.Error "Category not found"), []))).
Proof.
  split; intros videos; split.
  - unfold Flat.delete_video. cbn. intros (l & Hc & Hlen).
    rewrite !(prop_own videos _ l) by done.
    by rewrite item_numeral_out by by apply lookup_ge_None_2.
  - intros Hc Hi. unfold Flat.delete_video, Flat.delete_category. cbn.
    by rewrite prop_missing.
  - unfold Thumb.delete_video. cbn. intros (c & Hc & Hlen).
    rewrite !(prop_own videos _ c) by done.
    by rewrite item_numeral_out by by apply lookup_ge_None_2.
  - intros Hc Hi. unfold Thumb.delete_video, Thumb.delete_category. cbn.
    by rewrite prop_missing.
Qed.

Lemma delete_missing_witness :
  let v := mkVideo (Some "T") (Some "") (Some "U") None in
  let videos : Flat.Catalog := {[ "music" := [v] ]} in
  outcome (Flat.delete_video (runtime:=node) "music" "1") videos =
    (res_status_json 404 (Flat.Error "Video not found"), [])
  ∧ outcome (Flat.delete_video (runtime:=node) "news" "length") videos =
      (res_status_json 404 (Flat.Error "Video not found"), [])
  ∧ outcome (Flat.delete_category (runtime:=node) "news") videos =
      (res_status_json 404 (Flat.Error "Category not found"), []).
Proof.
  intros v videos.
  destruct (proj1 (delete_missing (runtime:=node) "music" 1) videos)
    as [Hpast _].
  destruct (proj1 (delete_missing (runtime:=node) "news" 0) videos)
    as [_ Hnone].
  split; [|split].
  - apply Hpast. exists [v]. split; [reflexivity | simpl; lia].
  - apply Hnone; reflexivity.
  - apply Hnone; reflexivity.
Defined.

(** ** Listing *)

(** X7: [GET /api/videos] returns the catalog that [readVideos] loaded,
    entry for entry; no GET route calls [writeVideos], and the disk after a
    GET request is the disk before it. *)
Theorem get_routes_read_only {runtime : Runtime} :
  (∀ (codec : Store.JSON Flat.Catalog) (r : Flat.route) (d : Store.Disk),
     Flat.target r = None →
     saved (Flat.handler r) (Store.load d) = []
     ∧ run (Flat.handler r) d =
         Store.Ok (result (Flat.handler r) (Store.load d), d))
  ∧ (∀ (codec : Store.JSON Thumb.Catalog) (r : Thumb.route) (d : Store.Disk),
     Thumb.target r = None →
     saved (Thumb.handler r) (Store.load d) = []
     ∧ run (Thumb.handler r) d =
         Store.Ok (result (Thumb.handler r) (Store.load d), d))
  ∧ (∀ (codec : Store.JSON Flat.Catalog) (d : Store.Disk),
     run Flat.get_videos d =
       Store.Ok (res_json (Flat.All (Store.load d)), d))
  ∧ (∀ (codec : Store.JSON Thumb.Catalog) (d : Store.Disk),
     run Thumb.get_videos d =
       Store.Ok (res_json (Thumb.All (Store.load d)), d)).
Proof.
  split; [|split; [|split]].
  - intros codec r d Hr.
    assert (saved (Flat.handler r) (Store.load d) = []) as Hs.
    { destruct r; try discriminate Hr; unfold saved; cbn; by repeat case_match. }
    split; [done|].
    rewrite run_reads_first by apply flat_reads_first. by rewrite Hs.
  - intros codec r d Hr.
    assert (saved (Thumb.handler r) (Store.load d) = []) as Hs.
    { destruct r; try discriminate Hr; unfold saved; cbn; by repeat case_match. }
    split; [done|].
    rewrite run_reads_first by apply thumb_reads_first. by rewrite Hs.
  - intros codec d.
    by rewrite (run_reads_first Flat.get_videos d
                  (flat_reads_first Flat.GetVideos)).
  - intros codec d.
    by rewrite (run_reads_first Thumb.get_videos d
                  (thumb_reads_first Thumb.GetVideos)).
Qed.

Lemma get_routes_read_only_witness :
  let videos : Thumb.Catalog := {[ "music" := Category.mk (Some "m.png") [] ]} in
  let d :=
    Store.mkDisk
      (Some (Store.JSON_stringify (JSON:=MiniJSON.thumb_json) videos))
      true true in
  saved (Thumb.handler (runtime:=node) Thumb.GetCategories)
    (Store.load (codec:=MiniJSON.thumb_json) d) = []
  ∧ run (codec:=MiniJSON.thumb_json)
      (Thumb.handler (runtime:=node) Thumb.GetCategories) d =
      Store.Ok (result (Thumb.handler (runtime:=node) Thumb.GetCategories)
                  (Store.load (codec:=MiniJSON.thumb_json) d), d).
Proof.
  intros videos d.
  destruct (get_routes_read_only (runtime:=node)) as (_ & Hthumb & _).
  apply (Hthumb MiniJSON.thumb_json Thumb.GetCategories d). reflexivity.
Defined.

(** X14: [GET /api/categories] lists the names of the catalog, each once;
    in the thumbnailed revisions every name comes with the thumbnail of its
    category, and with the empty string when the category has none. *)
Theorem get_categories_lists_catalog :
  (∀ videos : Flat.Catalog,
     ∃ names,
       outcome Flat.get_categories videos = (res_json (Flat.Names names), [])
       ∧ NoDup names
       ∧ ∀ k, k ∈ names ↔ is_Some (videos !! k))
  ∧ (∀ videos : Thumb.Catalog,
     ∃ categories,
       outcome Thumb.get_categories videos =
         (res_json (Thumb.Categories categories), [])
       ∧ NoDup categories.*1
       ∧ (∀ k t, (k, t) ∈ categories ↔
            ∃ c, videos !! k = Some c
                 ∧ t = or_empty (Category.categoryThumbnail c))
       ∧ (∀ k c, videos !! k = Some c →
            Category.categoryThumbnail c = None → (k, "") ∈ categories)).
Proof.
  split; intros videos; eexists; (split; [reflexivity|]).
  - split; [apply NoDup_Object_keys | apply elem_of_Object_keys].
  - assert (∀ k t,
      (k, t) ∈ (λ cat, (cat, or_empty (Category.categoryThumbnail
                                         (videos !!! cat))))
                 <$> Object_keys videos ↔
      ∃ c, videos !! k = Some c
           ∧ t = or_empty (Category.categoryThumbnail c)) as Hspec.
    { intros k t. rewrite list_elem_of_fmap. split.
      - intros (k' & [= -> ->] & [c Hc]%elem_of_Object_keys).
        exists c. split; [done|]. by rewrite (lookup_total_correct _ _ _ Hc).
      - intros (c & Hc & ->). exists k. split.
        + by rewrite (lookup_total_correct _ _ _ Hc).
        + apply elem_of_Object_keys. eauto. }
    split; [|split; [done|]].
    + rewrite <-list_fmap_compose.
      rewrite (list_fmap_ext _ id (Object_keys videos)) by done.
      rewrite list_fmap_id. apply NoDup_Object_keys.
    + intros k c Hc Hnone. apply Hspec. exists c. by rewrite Hnone.
Qed.

Lemma get_categories_lists_catalog_witness :
  let videos : Thumb.Catalog :=
    {[ "music" := Category.mk (Some "m.png") []; "news" := Category.mk None [] ]} in
  ∃ categories,
    outcome Thumb.get_categories videos =
      (res_json (Thumb.Categories categories), [])
    ∧ ("news", "") ∈ categories.
Proof.
  intros videos.
  destruct (proj2 get_categories_lists_catalog videos)
    as (categories & Hget & _ & _ & Hdefault).
  exists categories. split; [done|].
  apply (Hdefault "news" (Category.mk None [])); reflexivity.
Defined.

(** ** The store calls of a request *)



(** X8: what a request is answered does not depend on whether the file can
    be written: on a file that cannot be written every request gets the
    response it gets on one that can, and leaves the disk as it was. *)
Theorem write_failure_is_silent {runtime : Runtime} :
  (∀ (codec : Store.JSON Flat.Catalog) (r : Flat.route) contents readable,
     ∃ resp d',
       run (Flat.handler r) (Store.mkDisk contents readable true) =
         Store.Ok (resp, d')
       ∧ run (Flat.handler r) (Store.mkDisk contents readable false) =
           Store.Ok (resp, Store.mkDisk contents readable false))
  ∧ (∀ (codec : Store.JSON Thumb.Catalog) (r : Thumb.route) contents readable,
     ∃ resp d',
       run (Thumb.handler r) (Store.mkDisk contents readable true) =
         Store.Ok (resp, d')
       ∧ run (Thumb.handler r) (Store.mkDisk contents readable false) =
           Store.Ok (resp, Store.mkDisk contents readable false)).
Proof.
  assert (∀ Cat (codec : Store.JSON (gmap string Cat)) contents readable w,
            Store.load (Cat:=Cat) (Store.mkDisk contents readable w)
            = Store.load (Store.mkDisk contents readable true)) as Hload.
  { intros. by destruct w. }
  assert (∀ Cat (codec : Store.JSON (gmap string Cat)) saves d,
            Store.writable d = false → Store.commit (Cat:=Cat) saves d = d)
    as Hcommit.
  { intros Cat codec saves d Hd. induction saves as [|v saves IH]; [done|].
    simpl. by rewrite save_readonly. }
  split; intros codec r contents readable; eexists _, _.
  - rewrite !run_reads_first by apply flat_reads_first.
    split; [reflexivity|].
    by rewrite Hcommit, (Hload _ _ _ _ false).
  - rewrite !run_reads_first by apply thumb_reads_first.
    split; [reflexivity|].
    by rewrite Hcommit, (Hload _ _ _ _ false).
Qed.

(** ** Requests in sequence *)

(** X10: creating a category that the catalog does not hold, under a name
    that is not one of the names every object inherits, and then deleting
    it saves the catalog that the first request loaded. *)
Theorem create_then_delete_category {runtime : Runtime} (name : string) :
  name ≠ "" → object_inherits name = false →
  (∀ videos : Flat.Catalog,
     videos !! name = None →
     ∃ created,
       saved (Flat.post_category (Some name)) videos = [created]
       ∧ saved (Flat.delete_category name) created = [videos])
  ∧ (∀ videos : Thumb.Catalog,
     videos !! name = None →
     ∃ created,
       saved (Thumb.post_category (Some name)) videos = [created]
       ∧ saved (Thumb.delete_category name) created = [videos]).
Proof.
  intros Hname Hi. split; intros videos Habsent; eexists; split.
  - unfold saved, Flat.post_category, falsy. rewrite truthy_Some by done.
    cbn. rewrite prop_missing by done. reflexivity.
  - unfold saved, Flat.delete_category. cbn. rewrite prop_insert. cbn.
    by rewrite delete_insert_id.
  - unfold saved, Thumb.post_category, falsy. rewrite truthy_Some by done.
    cbn. rewrite prop_missing by done. reflexivity.
  - unfold saved, Thumb.delete_category. cbn. rewrite prop_insert. cbn.
    by rewrite delete_insert_id.
Qed.

Lemma create_then_delete_category_witness :
  let videos : Thumb.Catalog := {[ "news" := Category.mk None [] ]} in
  ∃ created,
    saved (Thumb.post_category (runtime:=node) (Some "music")) videos
      = [created]
    ∧ saved (Thumb.delete_category (runtime:=node) "music") created
      = [videos].
Proof.
  intros videos.
  assert ("music" ≠ "") as Hname by done.
  apply (proj2 (create_then_delete_category (runtime:=node) "music" Hname
                  eq_refl) videos).
  reflexivity.
Defined.

(** X11: adding a video to a category of the catalog and then deleting the
    video at the index it was given, the old length of the sequence, saves
    the catalog that the first request loaded. *)
Theorem post_then_delete_video {runtime : Runtime} (category : string)
    (title description url thumbnail : field) :
  truthy title = true → truthy url = true →
  (∀ (videos : Flat.Catalog) l,
     videos !! category = Some l →
     ∃ added,
       saved (Flat.post_video category title description url) videos = [added]
       ∧ saved (Flat.delete_video category (numeral (length l))) added
         = [videos])
  ∧ (∀ (videos : Thumb.Catalog) c,
     videos !! category = Some c →
     ∃ added,
       saved (Thumb.post_video_strict category title description url
                thumbnail) videos = [added]
       ∧ saved (Thumb.post_video_create category title description url
                  thumbnail) videos = [added]
       ∧ saved (Thumb.delete_video category
                  (numeral (length (Category.videos c))))
           added = [videos]).
Proof.
  intros Ht Hu. split.
  - intros videos l Hc. eexists. split.
    + unfold saved, Flat.post_video, falsy. rewrite Ht, Hu. cbn.
      rewrite !(prop_own videos _ l) by done. cbn. unfold Flat.push.
      rewrite (alter_present _ _ _ l) by done. reflexivity.
    + unfold saved.
      erewrite flat_delete_video_valid;
        [|apply lookup_insert_eq | by apply list_lookup_middle].
      cbn. rewrite insert_insert_eq.
      rewrite delete_take_drop, take_app_length.
      rewrite drop_ge by (rewrite length_app; simpl; lia).
      rewrite app_nil_r. by rewrite insert_id.
  - intros videos c Hc. eexists. split; [|split].
    + unfold saved, Thumb.post_video_strict, falsy. rewrite Ht, Hu. cbn.
      rewrite !(prop_own videos _ c) by done. cbn.
      rewrite (thumb_push_present _ _ _ c) by done. reflexivity.
    + unfold saved, Thumb.post_video_create, falsy. rewrite Ht, Hu. cbn.
      rewrite !(prop_own videos _ c) by done. cbn.
      rewrite (thumb_push_present _ _ _ c) by done. reflexivity.
    + unfold saved.
      erewrite thumb_delete_video_valid;
        [|apply lookup_insert_eq | by apply list_lookup_middle].
      cbn. rewrite insert_insert_eq.
      rewrite delete_take_drop, take_app_length.
      rewrite drop_ge by (rewrite length_app; simpl; lia).
      rewrite app_nil_r, category_eta. by rewrite insert_id.
Qed.

Lemma post_then_delete_video_witness :
  let a := mkVideo (Some "A") (Some "") (Some "a.mp4") None in
  let videos : Flat.Catalog := {[ "music" := [a] ]} in
  ∃ added,
    saved (Flat.post_video (runtime:=node) "music" (Some "T") None (Some "U"))
      videos = [added]
    ∧ saved (Flat.delete_video (runtime:=node) "music" "1") added
      = [videos].
Proof.
  intros a videos.
  destruct (post_then_delete_video (runtime:=node) "music" (Some "T") None
              (Some "U") None eq_refl eq_refl) as [Hflat _].
  apply (Hflat videos [a]). reflexivity.
Defined.

(** X12: of two thumbnails set on a category one after the other the
    catalog keeps the second: it is the catalog that setting the second
    alone saves.  Setting the same thumbnail again changes nothing. *)
Theorem category_thumbnail_last_wins {runtime : Runtime}
    (name T1 T2 : string) (videos : Thumb.Catalog) :
  T1 ≠ "" → T2 ≠ "" → is_Some (videos !! name) →
  ∃ first second,
    saved (Thumb.patch_category_thumbnail name (Some T1)) videos = [first]
    ∧ saved (Thumb.patch_category_thumbnail name (Some T2)) first = [second]
    ∧ saved (Thumb.patch_category_thumbnail name (Some T2)) videos = [second]
    ∧ saved (Thumb.patch_category_thumbnail name (Some T2)) second = [second].
Proof.
  intros H1 H2 [c Hc]. unfold saved.
  eexists _, _. split; [|split; [|split]].
  - by rewrite (thumb_patch_category_thumbnail_ok _ _ _ c)
      by auto using truthy_Some.
  - erewrite thumb_patch_category_thumbnail_ok;
      [|by apply truthy_Some | apply lookup_insert_eq]. simpl. reflexivity.
  - rewrite (thumb_patch_category_thumbnail_ok _ _ _ c)
      by auto using truthy_Some.
    simpl. by rewrite insert_insert_eq.
  - erewrite thumb_patch_category_thumbnail_ok;
      [|by apply truthy_Some | rewrite insert_insert_eq; apply lookup_insert_eq].
    simpl. by rewrite !insert_insert_eq.
Qed.

Lemma category_thumbnail_last_wins_witness :
  let videos : Thumb.Catalog := {[ "music" := Category.mk (Some "") [] ]} in
  ∃ first second,
    saved (Thumb.patch_category_thumbnail (runtime:=node) "music"
             (Some "a.png")) videos = [first]
    ∧ saved (Thumb.patch_category_thumbnail (runtime:=node) "music"
               (Some "b.png")) first = [second]
    ∧ saved (Thumb.patch_category_thumbnail (runtime:=node) "music"
               (Some "b.png")) videos = [second]
    ∧ saved (Thumb.patch_category_thumbnail (runtime:=node) "music"
               (Some "b.png")) second = [second].
Proof.
  intros videos.
  apply (category_thumbnail_last_wins (runtime:=node) "music" "a.png" "b.png"
           videos);
    [done | done | by eexists].
Defined.

(** ** The store *)

(** X13: [writeVideos] never throws.  On a file that can be written it
    replaces the whole content by the serialization of the catalog, so of
    two saves in a row the file keeps the second alone; on a file that
    cannot be written it leaves the disk as it was. *)
Theorem writeVideos_overwrites {Cat} {codec : Store.JSON (gmap string Cat)}
    (v1 v2 : gmap string Cat) (d : Store.Disk) :
  (∃ d',
     Store.writeVideos v1 d = Store.Ok d'
     ∧ (Store.writable d = true →
        d' = Store.mkDisk (Some (Store.JSON_stringify v1))
               (Store.readable d) true)
     ∧ (Store.writable d = false → d' = d))
  ∧ Store.bind (Store.writeVideos v1 d) (Store.writeVideos v2)
    = Store.writeVideos v2 d.
Proof.
  split.
  - exists (Store.save v1 d). split; [apply writeVideos_save|].
    split; [apply save_writable | apply save_readonly].
  - rewrite !writeVideos_save. simpl. rewrite writeVideos_save. f_equal.
    destruct (Store.writable d) eqn:Hw.
    + rewrite (save_writable v1 d Hw), (save_writable v2 d Hw).
      by rewrite save_writable.
    + by rewrite (save_readonly v1 d Hw), (save_readonly v2 d Hw).
Qed.

Lemma writeVideos_overwrites_witness :
  let v1 : Thumb.Catalog := {[ "music" := Category.mk (Some "") [] ]} in
  let d := Store.mkDisk (Some "{ oops") true true in
  ∃ d',
    Store.writeVideos (codec:=MiniJSON.thumb_json) v1 d = Store.Ok d'
    ∧ d' = Store.mkDisk
             (Some (Store.JSON_stringify (JSON:=MiniJSON.thumb_json) v1))
             true true.
Proof.
  intros v1 d.
  destruct (writeVideos_overwrites (codec:=MiniJSON.thumb_json) v1 ∅ d)
    as [(d' & Hwrite & Hwritable & _) _].
  exists d'. split; [done|]. apply Hwritable. reflexivity.
Defined.

(** ** Titles and urls *)

Lemma titled_new_video title description url thumbnail :
  truthy title = true → truthy url = true →
  titled (Thumb.new_video title description url thumbnail) = true.
Proof.
  intros Ht Hu. unfold Thumb.new_video, titled.
  destruct (truthy thumbnail); simpl; by rewrite Ht, Hu.
Qed.

Lemma flat_titled_insert (videos : Flat.Catalog) k l :
  Forall (λ v, titled v = true) l → flat_titled videos →
  flat_titled (<[k := l]> videos).
Proof.
  intros Hl Hv k' l'. destruct (decide (k' = k)) as [->|].
  - rewrite lookup_insert_eq. by intros [= <-].
  - rewrite lookup_insert_ne by done. apply Hv.
Qed.

Lemma thumb_titled_insert (videos : Thumb.Catalog) k c :
  Forall (λ v, titled v = true) (Category.videos c) → thumb_titled videos →
  thumb_titled (<[k := c]> videos).
Proof.
  intros Hl Hv k' l'. destruct (decide (k' = k)) as [->|].
  - rewrite lookup_insert_eq. by intros [= <-].
  - rewrite lookup_insert_ne by done. apply Hv.
Qed.

Lemma flat_titled_alter (videos : Flat.Catalog) k f :
  (∀ l, Forall (λ v, titled v = true) l → Forall (λ v, titled v = true) (f l)) →
  flat_titled videos → flat_titled (alter f k videos).
Proof.
  intros Hf Hv k' l'. destruct (decide (k' = k)) as [->|].
  - rewrite lookup_alter_eq. destruct (videos !! k) as [l|] eqn:Hl; [|done].
    intros [= <-]. apply Hf. by eapply Hv.
  - rewrite lookup_alter_ne by done. apply Hv.
Qed.

Lemma thumb_titled_alter (videos : Thumb.Catalog) k f :
  (∀ c, Forall (λ v, titled v = true) (Category.videos c) →
        Forall (λ v, titled v = true) (Category.videos (f c))) →
  thumb_titled videos → thumb_titled (alter f k videos).
Proof.
  intros Hf Hv k' l'. destruct (decide (k' = k)) as [->|].
  - rewrite lookup_alter_eq. destruct (videos !! k) as [l|] eqn:Hl; [|done].
    intros [= <-]. apply Hf. by eapply Hv.
  - rewrite lookup_alter_ne by done. apply Hv.
Qed.

Lemma Forall_titled_delete (l : list Video) i :
  Forall (λ v, titled v = true) l → Forall (λ v, titled v = true) (delete i l).
Proof. apply Forall_delete. Qed.

(** X15: when every video of the catalog has a title and a url, so has
    every video of a catalog that a request saves, whatever the request, in
    every revision that checks the body of a create-video request (all but
    part_001). *)
Theorem titled_preserved {runtime : Runtime} :
  (∀ (r : Flat.route) (videos videos' : Flat.Catalog),
     flat_titled videos → videos' ∈ saved (Flat.handler r) videos →
     flat_titled videos')
  ∧ (∀ (r : Thumb.route) (videos videos' : Thumb.Catalog),
     checks_body r = true →
     thumb_titled videos → videos' ∈ saved (Thumb.handler r) videos →
     thumb_titled videos').
Proof.
  split.
  - intros r videos videos' Hv Hs. unfold saved in Hs.
    destruct r; cbn in Hs;
      unfold Flat.post_video, Flat.delete_video, Flat.post_category,
        Flat.delete_category, falsy in Hs;
      cbn in Hs; repeat (case_match; cbn in Hs);
      try (by apply elem_of_nil in Hs);
      apply list_elem_of_singleton in Hs as ->;
      first
        [ exact Hv
        | apply flat_titled_alter;
          [ intros l' Hl';
            first
              [ by apply Forall_delete
              | apply Forall_app; split; [done|];
                apply Forall_singleton; unfold titled; simpl;
                by repeat match goal with
                          | H : context [truthy ?x] |- _ => destruct (truthy x)
                          end ]
          | first [ done | by apply flat_titled_insert ] ]
        | by apply flat_titled_insert
        | intros k l' [_ Hl']%lookup_delete_Some; by eapply Hv ].
  - intros r videos videos' Hr Hv Hs. unfold saved in Hs.
    destruct r; try discriminate Hr; cbn in Hs;
      unfold Thumb.post_video_create, Thumb.post_video_strict,
        Thumb.patch_video_thumbnail, Thumb.delete_video, Thumb.post_category,
        Thumb.patch_category_thumbnail, Thumb.delete_category, falsy in Hs;
      cbn in Hs; repeat (case_match; cbn in Hs);
      try (by apply elem_of_nil in Hs);
      apply list_elem_of_singleton in Hs as ->;
      unfold Thumb.push, Thumb.splice, Thumb.set_video_thumbnail,
        Thumb.set_category_thumbnail;
      first
        [ exact Hv
        | apply thumb_titled_alter;
          [ intros c' Hc'; simpl;
            first
              [ done
              | by apply Forall_delete
              | apply Forall_alter; [done|]; intros w _ Hw; exact Hw
              | apply Forall_app; split; [done|];
                apply Forall_singleton; apply titled_new_video;
                by repeat match goal with
                          | H : context [truthy ?x] |- _ => destruct (truthy x)
                          end ]
          | first [ done | by apply thumb_titled_insert ] ]
        | by apply thumb_titled_insert
        | intros k c' [_ Hc']%lookup_delete_Some; by eapply Hv ].
Qed.

Lemma titled_preserved_witness :
  let a := mkVideo (Some "A") (Some "") (Some "a.mp4") None in
  let b := mkVideo (Some "B") (Some "") (Some "b.mp4") None in
  let videos : Thumb.Catalog := {[ "music" := Category.mk None [a] ]} in
  let videos' : Thumb.Catalog := {[ "music" := Category.mk None [a; b] ]} in
  saved (Thumb.handler (runtime:=node)
           (Thumb.PostVideoStrict "music" (Some "B") None (Some "b.mp4") None))
    videos = [videos']
  ∧ thumb_titled videos'.
Proof.
  intros a b videos videos'.
  assert (saved (Thumb.handler (runtime:=node)
                   (Thumb.PostVideoStrict "music" (Some "B") None
                      (Some "b.mp4") None)) videos = [videos']) as Hsaved
    by (vm_compute; reflexivity).
  split; [done|].
  apply (proj2 (titled_preserved (runtime:=node))
           (Thumb.PostVideoStrict "music" (Some "B") None (Some "b.mp4") None)
           videos videos').
  - reflexivity.
  - intros k c [<- <-]%lookup_singleton_Some. simpl.
    by apply Forall_singleton.
  - rewrite Hsaved. by apply list_elem_of_singleton.
Defined.

(** ** From one request to the next, through the file *)

(** X16: on a file that can be written and read, when [JSON.parse] reads
    back the catalog that was saved, the names that a create-category
    request returns, for a name that the catalog does not hold and that is
    not one of the names every object inherits, are the names that the next
    [GET /api/categories] lists from the file, the new one among them; in
    the thumbnailed revisions it is listed with the empty thumbnail. *)
Theorem created_category_is_listed {runtime : Runtime}
    (name : string) (d : Store.Disk) :
  name ≠ "" → object_inherits name = false →
  Store.writable d = true → Store.readable d = true →
  (∀ (codec : Store.JSON Flat.Catalog),
     Store.load d !! name = None →
     Store.JSON_parse (Store.JSON_stringify (<[name := []]> (Store.load d)))
       = Some (<[name := []]> (Store.load d)) →
     ∃ names d',
       run (Flat.post_category (Some name)) d =
         Store.Ok (res_json (Flat.OkCategories names), d')
       ∧ run Flat.get_categories d' =
           Store.Ok (res_json (Flat.Names names), d')
       ∧ name ∈ names)
  ∧ (∀ (codec : Store.JSON Thumb.Catalog),
     Store.load d !! name = None →
     Store.JSON_parse
       (Store.JSON_stringify
          (<[name := Category.mk (Some "") []]> (Store.load d)))
       = Some (<[name := Category.mk (Some "") []]> (Store.load d)) →
     ∃ names categories d',
       run (Thumb.post_category (Some name)) d =
         Store.Ok (res_json (Thumb.OkCategories names), d')
       ∧ run Thumb.get_categories d' =
           Store.Ok (res_json (Thumb.Categories categories), d')
       ∧ categories.*1 = names
       ∧ (name, "") ∈ categories).
Proof.
  intros Hname Hi Hw Hr. split; intros codec Habsent Hcodec.
  - set (created := <[name := []]> (Store.load d)) in *.
    exists (Object_keys created), (Store.save created d).
    assert (Store.load (Store.save created d) = created) as Hload
      by by apply load_save.
    split; [|split].
    + rewrite (run_reads_first (Flat.post_category (Some name)) d
                 (flat_reads_first (Flat.PostCategory (Some name)))).
      unfold result, saved. cbn [Flat.handler].
      unfold Flat.post_category, falsy. rewrite truthy_Some by done. cbn.
      by rewrite prop_missing.
    + rewrite (run_reads_first Flat.get_categories _
                 (flat_reads_first Flat.GetCategories)).
      unfold result, saved. cbn. by rewrite Hload.
    + apply elem_of_Object_keys. unfold created. rewrite lookup_insert_eq.
      eauto.
  - set (created := <[name := Category.mk (Some "") []]> (Store.load d)) in *.
    exists (Object_keys created),
      ((λ cat, (cat, or_empty (Category.categoryThumbnail (created !!! cat))))
         <$> Object_keys created),
      (Store.save created d).
    assert (Store.load (Store.save created d) = created) as Hload
      by by apply load_save.
    split; [|split; [|split]].
    + rewrite (run_reads_first (Thumb.post_category (Some name)) d
                 (thumb_reads_first (Thumb.PostCategory (Some name)))).
      unfold result, saved. cbn [Thumb.handler].
      unfold Thumb.post_category, falsy. rewrite truthy_Some by done. cbn.
      by rewrite prop_missing.
    + rewrite (run_reads_first Thumb.get_categories _
                 (thumb_reads_first Thumb.GetCategories)).
      unfold result, saved. cbn. by rewrite Hload.
    + rewrite <-list_fmap_compose.
      rewrite (list_fmap_ext _ id (Object_keys created)) by done.
      apply list_fmap_id.
    + apply list_elem_of_fmap. exists name. split.
      * unfold created. by rewrite lookup_total_insert_eq.
      * apply elem_of_Object_keys. unfold created.
        rewrite lookup_insert_eq. eauto.
Qed.

Lemma created_category_is_listed_witness :
  let d := Store.mkDisk None true true in
  ∃ names categories d',
    run (codec:=MiniJSON.thumb_json)
        (Thumb.post_category (runtime:=node) (Some "music")) d =
      Store.Ok (res_json (Thumb.OkCategories names), d')
    ∧ run (codec:=MiniJSON.thumb_json) Thumb.get_categories d' =
        Store.Ok (res_json (Thumb.Categories categories), d')
    ∧ categories.*1 = names
    ∧ ("music", "") ∈ categories.
Proof.
  intros d.
  assert ("music" ≠ "") as Hname by done.
  apply (proj2 (created_category_is_listed (runtime:=node) "music" d Hname
                  eq_refl eq_refl eq_refl) MiniJSON.thumb_json).
  - reflexivity.
  - apply thumb_parse_stringify.
Defined.

(** ** What a response shows of the saved catalog *)

(** X17: the sequence that a request creating, updating or deleting a video
    returns is the sequence of the category in the catalog that it saved:
    listing the category on that catalog returns the same sequence. *)
Theorem returned_sequence_is_saved {runtime : Runtime} :
  (∀ (r : Flat.route) (C : string) (videos videos' : Flat.Catalog) l,
     Flat.target r = Some C →
     outcome (Flat.handler r) videos = (res_json (Flat.OkVideos l), [videos']) →
     outcome (Flat.get_category C) videos' = (res_json (Flat.Listing l), []))
  ∧ (∀ (r : Thumb.route) (C : string) (videos videos' : Thumb.Catalog) l,
     Thumb.target r = Some C →
     outcome (Thumb.handler r) videos =
       (res_json (Thumb.OkVideos l), [videos']) →
     outcome (Thumb.get_category C) videos' =
       (res_json (Thumb.Listing l), [])).
Proof.
  split.
  - intros r C videos videos' l Ht Ho.
    apply flat_get_category_present.
    destruct r; simplify_eq/=;
      unfold Flat.post_video, Flat.delete_video, Flat.post_category,
        Flat.delete_category in Ho;
      cbn in Ho; repeat (case_match; cbn in Ho); simplify_eq;
      apply lookup_lookup_total; unfold Flat.push, Flat.splice;
      rewrite ?lookup_alter_eq, ?fmap_is_Some, ?lookup_insert_eq;
      try (by eexists); try congruence;
      repeat match goal with
             | H : prop _ _ = Own _ |- _ => apply prop_Own_inv in H
             end;
      by eauto.
  - intros r C videos videos' l Ht Ho.
    assert (∃ c, videos' !! C = Some c ∧ Category.videos c = l)
      as (c & Hc & <-); [|by apply thumb_get_category_present].
    exists (videos' !!! C).
    destruct r; simplify_eq/=;
      unfold Thumb.post_video_create, Thumb.post_video_strict,
        Thumb.post_video_part001, Thumb.patch_video_thumbnail,
        Thumb.delete_video, Thumb.post_category,
        Thumb.patch_category_thumbnail, Thumb.delete_category in Ho;
      cbn in Ho; repeat (case_match; cbn in Ho); simplify_eq;
      (split; [|done]);
      apply lookup_lookup_total;
      unfold Thumb.push, Thumb.splice, Thumb.set_video_thumbnail;
      rewrite ?lookup_alter_eq, ?fmap_is_Some, ?lookup_insert_eq;
      try (by eexists); try congruence;
      repeat match goal with
             | H : prop _ _ = Own _ |- _ => apply prop_Own_inv in H
             end;
      by eauto.
Qed.

Lemma returned_sequence_is_saved_witness :
  let a := mkVideo (Some "A") (Some "") (Some "a.mp4") None in
  let b := mkVideo (Some "B") (Some "") (Some "b.mp4") None in
  let videos : Flat.Catalog := {[ "music" := [a; b] ]} in
  let videos' : Flat.Catalog := {[ "music" := [b] ]} in
  outcome (Flat.handler (runtime:=node) (Flat.DeleteVideo "music" "0"))
    videos = (res_json (Flat.OkVideos [b]), [videos'])
  ∧ outcome (Flat.get_category (runtime:=node) "music") videos' =
      (res_json (Flat.Listing [b]), []).
Proof.
  intros a b videos videos'.
  assert (outcome (Flat.handler (runtime:=node)
                     (Flat.DeleteVideo "music" "0")) videos =
            (res_json (Flat.OkVideos [b]), [videos'])) as Ho
    by (vm_compute; reflexivity).
  split; [done|].
  apply (proj1 (returned_sequence_is_saved (runtime:=node))
           (Flat.DeleteVideo "music" "0") "music"
           videos videos' [b]); [reflexivity | exact Ho].
Defined.

(** ** Indices after a deletion *)

(** X18: a video is addressed by its position at the time of the request:
    after the video at an index is deleted, a second delete request for the
    same index removes the video that came next, and the catalog saved has
    lost both. *)
Theorem delete_twice_same_index {runtime : Runtime}
    (category : string) (index : nat) :
  (∀ (videos : Flat.Catalog) l,
     videos !! category = Some l → S index < length l →
     ∃ once,
       saved (Flat.delete_video category (numeral index)) videos = [once]
       ∧ saved (Flat.delete_video category (numeral index)) once =
           [<[category := take index l ++ drop (2 + index) l]> videos])
  ∧ (∀ (videos : Thumb.Catalog) c,
     videos !! category = Some c → S index < length (Category.videos c) →
     ∃ once,
       saved (Thumb.delete_video category (numeral index)) videos = [once]
       ∧ saved (Thumb.delete_video category (numeral index)) once =
           [<[category :=
                Category.mk (Category.categoryThumbnail c)
                  (take index (Category.videos c)
                   ++ drop (2 + index) (Category.videos c))]> videos]).
Proof.
  assert (∀ (l : list Video), S index < length l →
            is_Some (l !! index) ∧ is_Some (delete index l !! index)
            ∧ delete index (delete index l)
              = take index l ++ drop (2 + index) l) as Hlist.
  { intros l Hlen. split; [apply lookup_lt_is_Some_2; lia|]. split.
    - apply lookup_lt_is_Some_2.
      rewrite length_delete by (apply lookup_lt_is_Some_2; lia). lia.
    - rewrite (delete_take_drop (delete index l)), (delete_take_drop l).
      rewrite take_app_le, take_take by (rewrite length_take; lia).
      rewrite Nat.min_id.
      rewrite drop_app_ge by (rewrite length_take; lia).
      rewrite length_take, drop_drop. do 2 f_equal. lia. }
  split.
  - intros videos l Hc Hlen.
    destruct (Hlist l Hlen) as ([v Hv] & [w Hw] & Htwice).
    eexists. unfold saved. split.
    + by erewrite flat_delete_video_valid.
    + erewrite flat_delete_video_valid; [|apply lookup_insert_eq|done].
      simpl. by rewrite insert_insert_eq, Htwice.
  - intros videos c Hc Hlen.
    destruct (Hlist _ Hlen) as ([v Hv] & [w Hw] & Htwice).
    eexists. unfold saved. split.
    + by erewrite thumb_delete_video_valid.
    + erewrite thumb_delete_video_valid; [|apply lookup_insert_eq|done].
      simpl. by rewrite insert_insert_eq, Htwice.
Qed.

Lemma delete_twice_same_index_witness :
  let v t := mkVideo (Some t) (Some "") (Some "U") None in
  let videos : Flat.Catalog := {[ "music" := [v "a"; v "b"; v "c"] ]} in
  ∃ once,
    saved (Flat.delete_video (runtime:=node) "music" "0") videos
      = [once]
    ∧ saved (Flat.delete_video (runtime:=node) "music" "0") once =
        [<["music" := [v "c"]]> videos].
Proof.
  intros v videos.
  apply (proj1 (delete_twice_same_index (runtime:=node) "music" 0) videos
           [v "a"; v "b"; v "c"]).
  - reflexivity.
  - simpl. lia.
Defined.

(** ** Names that every object inherits *)

(** X19: the category routes, for a non-empty name that the catalog does
    not hold and that every object inherits (in Node.js: [constructor],
    [toString], [__proto__], ...); the guards [videos[name]] and
    [!videos[name]] find the inherited value.  Creating the category is
    refused, 400 "Category already exists", and nothing is saved.  Deleting
    it is answered 200 with the names of the catalog, and the catalog is
    saved as it was read; so is it when the thumbnail is set, which is
    answered 200 with the thumbnail.  Listing it is answered 200, without a
    video sequence. *)
Theorem inherited_name_category_routes {runtime : Runtime} (name : string) :
  name ≠ "" → object_inherits name = true →
  (∀ videos : Flat.Catalog,
     videos !! name = None →
     outcome (Flat.post_category (Some name)) videos =
       (res_status_json 400 (Flat.Error "Category already exists"), [])
     ∧ outcome (Flat.delete_category name) videos =
         (res_json (Flat.OkCategories (Object_keys videos)), [videos])
     ∧ outcome (Flat.get_category name) videos =
         (res_json (Flat.Foreign name), []))
  ∧ (∀ videos : Thumb.Catalog,
     videos !! name = None →
     outcome (Thumb.post_category (Some name)) videos =
       (res_status_json 400 (Thumb.Error "Category already exists"), [])
     ∧ outcome (Thumb.delete_category name) videos =
         (res_json (Thumb.OkCategories (Object_keys videos)), [videos])
     ∧ (∀ T, T ≠ "" →
        outcome (Thumb.patch_category_thumbnail name (Some T)) videos =
          (res_json (Thumb.OkThumbnail (Some T)), [videos]))
     ∧ outcome (Thumb.get_category name) videos = (res_json Thumb.NoBody, [])
     ∧ outcome (Thumb.get_category_part001 name) videos =
         (res_json (Thumb.Foreign name), [])).
Proof.
  intros Hname Hi. split; intros videos Hc.
  - split; [|split].
    + unfold Flat.post_category, falsy. rewrite truthy_Some by done. cbn.
      by rewrite prop_inherited.
    + unfold Flat.delete_category. cbn. rewrite prop_inherited by done.
      cbn. by rewrite delete_id.
    + by apply flat_get_category_inherited.
  - split; [|split; [|split; [|split]]].
    + unfold Thumb.post_category, falsy. rewrite truthy_Some by done. cbn.
      by rewrite prop_inherited.
    + unfold Thumb.delete_category. cbn. rewrite prop_inherited by done.
      cbn. by rewrite delete_id.
    + intros T HT. unfold Thumb.patch_category_thumbnail, falsy.
      rewrite truthy_Some by done. cbn. rewrite prop_inherited by done.
      cbn. unfold Thumb.set_category_thumbnail. by rewrite alter_absent.
    + by apply thumb_get_category_inherited.
    + unfold Thumb.get_category_part001. cbn. by rewrite prop_inherited.
Qed.

Lemma inherited_name_category_routes_witness :
  let videos : Thumb.Catalog := {[ "music" := Category.mk (Some "") [] ]} in
  outcome (Thumb.post_category (runtime:=node) (Some "constructor")) ∅ =
    (res_status_json 400 (Thumb.Error "Category already exists"), [])
  ∧ outcome (Thumb.delete_category (runtime:=node) "toString") videos =
      (res_json (Thumb.OkCategories ["music"]), [videos])
  ∧ outcome (Thumb.patch_category_thumbnail (runtime:=node) "constructor"
               (Some "c.png")) videos =
      (res_json (Thumb.OkThumbnail (Some "c.png")), [videos])
  ∧ outcome (Thumb.get_category (runtime:=node) "__proto__") videos =
      (res_json Thumb.NoBody, []).
Proof.
  intros videos.
  assert ("constructor" ≠ "") as Hc by done.
  assert ("toString" ≠ "") as Ht by done.
  assert ("__proto__" ≠ "") as Hp by done.
  assert ("c.png" ≠ "") as Hpng by done.
  assert ((∅ : Thumb.Catalog) !! "constructor" = None) as He by reflexivity.
  assert (videos !! "constructor" = None) as Hvc by reflexivity.
  assert (videos !! "toString" = None) as Hvt by reflexivity.
  assert (videos !! "__proto__" = None) as Hvp by reflexivity.
  destruct (proj2 (inherited_name_category_routes (runtime:=node)
                     "constructor" Hc eq_refl) ∅ He)
    as (Hpost & _).
  destruct (proj2 (inherited_name_category_routes (runtime:=node)
                     "toString" Ht eq_refl) videos Hvt)
    as (_ & Hdelete & _).
  destruct (proj2 (inherited_name_category_routes (runtime:=node)
                     "constructor" Hc eq_refl) videos Hvc)
    as (_ & _ & Hpatch & _).
  destruct (proj2 (inherited_name_category_routes (runtime:=node)
                     "__proto__" Hp eq_refl) videos Hvp)
    as (_ & _ & _ & Hget & _).
  split; [exact Hpost|]. split; [exact Hdelete|].
  split; [exact (Hpatch "c.png" Hpng) | exact Hget].
Defined.

(** X20: the video routes, for a category name that the catalog does not
    hold and that every object inherits.  A create-video request finds the
    inherited value where it expects the category, and throws when it
    appends to it: no response is sent by the handler and nothing is saved.
    So do, in the thumbnailed revisions, the requests that delete a video
    and that set its thumbnail.  In the flat revisions a request to delete
    a video throws when the inherited value has a property of the name of
    the index segment, and is answered 404 when it has none. *)
Theorem inherited_name_video_routes {runtime : Runtime} (category : string)
    (title description url thumbnail : field) :
  object_inherits category = true →
  (∀ videos : Flat.Catalog,
     videos !! category = None →
     (truthy title = true → truthy url = true →
      outcome (Flat.post_video category title description url) videos =
        (Thrown, []))
     ∧ (∀ index,
        outcome (Flat.delete_video category index) videos =
          (if inherited_member category index then Thrown
           else res_status_json 404 (Flat.Error "Video not found"), [])))
  ∧ (∀ videos : Thumb.Catalog,
     videos !! category = None →
     (truthy title = true → truthy url = true →
      outcome (Thumb.post_video_create category title description url
                 thumbnail) videos = (Thrown, [])
      ∧ outcome (Thumb.post_video_strict category title description url
                   thumbnail) videos = (Thrown, []))
     ∧ outcome (Thumb.post_video_part001 category title description url
                  thumbnail) videos = (Thrown, [])
     ∧ (∀ segment,
        outcome (Thumb.delete_video category segment) videos = (Thrown, []))
     ∧ (∀ segment T, T ≠ "" →
        outcome (Thumb.patch_video_thumbnail category segment (Some T)) videos
          = (Thrown, []))).
Proof.
  intros Hi. split; intros videos Hc.
  - split.
    + intros Ht Hu. unfold Flat.post_video, falsy. rewrite Ht, Hu. cbn.
      by rewrite !(prop_inherited videos) by done.
    + intros index. unfold Flat.delete_video. cbn.
      rewrite prop_inherited by done.
      by destruct (inherited_member category index).
  - split; [|split; [|split]].
    + intros Ht Hu.
      unfold Thumb.post_video_create, Thumb.post_video_strict, falsy.
      rewrite Ht, Hu. cbn. by rewrite !(prop_inherited videos) by done.
    + unfold Thumb.post_video_part001. cbn. by rewrite prop_inherited.
    + intros segment. unfold Thumb.delete_video. cbn.
      by rewrite prop_inherited.
    + intros segment T HT. unfold Thumb.patch_video_thumbnail, falsy.
      rewrite truthy_Some by done. cbn. by rewrite prop_inherited.
Qed.

Lemma inherited_name_video_routes_witness :
  outcome (Flat.post_video (runtime:=node) "constructor" (Some "T") None
             (Some "U")) ∅ = (Thrown, [])
  ∧ outcome (Thumb.post_video_strict (runtime:=node) "constructor" (Some "T")
               None (Some "U") None) ∅ = (Thrown, [])
  ∧ outcome (Thumb.delete_video (runtime:=node) "constructor" "0") ∅
    = (Thrown, [])
  ∧ outcome (Flat.delete_video (runtime:=node) "constructor" "0") ∅
    = (res_status_json 404 (Flat.Error "Video not found"), [])
  ∧ outcome (Flat.delete_video (runtime:=node) "constructor" "name") ∅
    = (Thrown, []).
Proof.
  destruct (inherited_name_video_routes (runtime:=node) "constructor"
              (Some "T") None (Some "U") None eq_refl) as [Hflat Hthumb].
  assert ((∅ : Flat.Catalog) !! "constructor" = None) as Hf by reflexivity.
  assert ((∅ : Thumb.Catalog) !! "constructor" = None) as Ht by reflexivity.
  destruct (Hflat ∅ Hf) as [Hpost Hindex].
  destruct (Hthumb ∅ Ht) as (Hcreate & _ & Hdelete & _).
  split; [exact (Hpost eq_refl eq_refl)|].
  split; [exact (proj2 (Hcreate eq_refl eq_refl))|].
  split; [exact (Hdelete "0")|].
  split; [exact (Hindex "0") | exact (Hindex "name")].
Defined.

(** ** An index segment that is no numeral *)

(** X21: the [:index] segment is used as a property name in the guard and
    as a number by [splice].  For a category of the catalog: the segment
    [length] passes the guard when the category has a video, and the
    request deletes the first video; on a category without videos it is
    answered 404, as is every other segment that is no numeral of an index
    and no name that arrays inherit.  Setting the thumbnail of the video
    [length] throws, on a category that has a video, and saves nothing. *)
Theorem named_index_segment {runtime : Runtime} (category : string) :
  (∀ (videos : Flat.Catalog) l,
     videos !! category = Some l →
     (∀ v l', l = v :: l' →
        outcome (Flat.delete_video category "length") videos =
          (res_json (Flat.OkVideos l'), [<[category := l']> videos]))
     ∧ (l = [] →
        outcome (Flat.delete_video category "length") videos =
          (res_status_json 404 (Flat.Error "Video not found"), []))
     ∧ (∀ s, array_index s = None → s ≠ "length" →
        array_inherits s = false →
        outcome (Flat.delete_video category s) videos =
          (res_status_json 404 (Flat.Error "Video not found"), [])))
  ∧ (∀ (videos : Thumb.Catalog) c,
     videos !! category = Some c →
     (∀ v l', Category.videos c = v :: l' →
        outcome (Thumb.delete_video category "length") videos =
          (res_json (Thumb.OkVideos l'),
           [<[category := Category.mk (Category.categoryThumbnail c) l']>
              videos])
        ∧ (∀ T, T ≠ "" →
           outcome (Thumb.patch_video_thumbnail category "length"
                      (Some T)) videos = (Thrown, [])))
     ∧ (Category.videos c = [] →
        outcome (Thumb.delete_video category "length") videos =
          (res_status_json 404 (Thumb.Error "Video not found"), []))
     ∧ (∀ s, array_index s = None → s ≠ "length" →
        array_inherits s = false →
        outcome (Thumb.delete_video category s) videos =
          (res_status_json 404 (Thumb.Error "Video not found"), []))).
Proof.
  split.
  - intros videos l Hc. split; [|split].
    + intros v l' ->. unfold Flat.delete_video. cbn.
      rewrite (prop_own _ _ (v :: l')) by done.
      rewrite item_length, start_length. cbn.
      rewrite (flat_splice_present _ _ _ (v :: l')) by done.
      by rewrite lookup_total_insert_eq.
    + intros ->. unfold Flat.delete_video. cbn.
      by rewrite (prop_own _ _ []), item_length_nil.
    + intros s Hn Hs Ha. unfold Flat.delete_video. cbn.
      by rewrite (prop_own _ _ l), item_no_property.
  - intros videos c Hc. split; [|split].
    + intros v l' Hl. split.
      * unfold Thumb.delete_video. cbn. rewrite (prop_own _ _ c) by done.
        rewrite Hl, item_length, start_length. cbn.
        rewrite (thumb_splice_present _ _ _ c) by done.
        rewrite lookup_total_insert_eq. by rewrite Hl.
      * intros T HT. unfold Thumb.patch_video_thumbnail, falsy.
        rewrite truthy_Some by done. cbn. rewrite (prop_own _ _ c) by done.
        by rewrite Hl, item_length.
    + intros Hl. unfold Thumb.delete_video. cbn.
      by rewrite (prop_own _ _ c), Hl, item_length_nil.
    + intros s Hn Hs Ha. unfold Thumb.delete_video. cbn.
      by rewrite (prop_own _ _ c), item_no_property.
Qed.

Lemma named_index_segment_witness :
  let v t := mkVideo (Some t) (Some "") (Some "U") None in
  let videos : Flat.Catalog := {[ "music" := [v "a"; v "b"]; "news" := [] ]} in
  outcome (Flat.delete_video (runtime:=node) "music" "length") videos =
    (res_json (Flat.OkVideos [v "b"]), [<["music" := [v "b"]]> videos])
  ∧ outcome (Flat.delete_video (runtime:=node) "news" "length") videos =
      (res_status_json 404 (Flat.Error "Video not found"), [])
  ∧ outcome (Flat.delete_video (runtime:=node) "music" "first") videos =
      (res_status_json 404 (Flat.Error "Video not found"), []).
Proof.
  intros v videos.
  assert (videos !! "music" = Some [v "a"; v "b"]) as Hm by reflexivity.
  assert (videos !! "news" = Some []) as Hn by reflexivity.
  destruct (proj1 (named_index_segment (runtime:=node) "music") videos
              [v "a"; v "b"] Hm) as (Hfirst & _ & Hother).
  destruct (proj1 (named_index_segment (runtime:=node) "news") videos
              [] Hn) as (_ & Hempty & _).
  split; [exact (Hfirst (v "a") [v "b"] eq_refl)|].
  split; [exact (Hempty eq_refl)|].
  apply Hother; [reflexivity | done | reflexivity].
Defined.
